(** * GRPO fine-tuning of EvoDiff: a shallow embedding of [run_grpo_evodiff.py]

    The development follows the script top to bottom: the Python run-time
    notions it relies on (exceptions, the [try]/[except] discipline, paths
    and string formatting), the tensor arithmetic of the loss and of the
    advantage normalisation, the scoring bridge [get_reward], the likelihood
    evaluator [calculate_nll], the objective [grpo_loss] and the training
    loop [main].

    Numbers.  Python floats and tensor elements are modelled as exact real
    numbers.  An operation that has no real value (a division by zero, the
    square root of a negative number) yields [None], which stands for the
    NaN or infinity that the floating-point operation produces; [None] is
    absorbing for the arithmetic.  Rounding is outside this model of the
    numbers; where a claim depends on it, the advantage normalisation is
    given a second time in IEEE single precision, the element type of the
    reward tensor ([advantages_f32]). *)

From Stdlib Require Import Reals Lra Lia List String Ascii.
From Stdlib Require Import DecimalString DecimalNat.
From Stdlib Require Import Floats.SpecFloat.
From stdpp Require Import base option list gmap strings.

#[local] Set Warnings "-register-all".
Local Open Scope R_scope.

(** ** Python exceptions and results *)

(** What Python can raise, by kind: instances of the [Exception] class, and
    the two instances of [BaseException] outside it that can reach this
    script, an interrupt from the keyboard and an exit of the interpreter. *)
Inductive exn : Type :=
  | OSError | KeyError | IndexError | TypeError | ValueError
  | AttributeError | RuntimeError | ZeroDivisionError | AssertionError
  | UnpicklingError
  | KeyboardInterrupt | SystemExit.

(** [isinstance(e, Exception)]: what an [except Exception] clause catches. *)
Definition is_Exception (e : exn) : bool :=
  match e with
  | KeyboardInterrupt | SystemExit => false
  | _ => true
  end.

Inductive Res (A : Type) : Type :=
  | Ok (a : A)
  | Raise (e : exn).
Arguments Ok {A} a.
Arguments Raise {A} e.

Definition res_bind {A B} (r : Res A) (k : A -> Res B) : Res B :=
  match r with
  | Ok a => k a
  | Raise e => Raise e
  end.

Notation "'LET' x <~ c 'IN' k" := (res_bind c (fun x => k))
  (at level 10, x name, c at level 100, k at level 200).

(** ** Floats and one-dimensional tensors *)

Definition float := option R.

Definition fadd (x y : float) : float :=
  match x, y with Some a, Some b => Some (a + b) | _, _ => None end.
Definition fsub (x y : float) : float :=
  match x, y with Some a, Some b => Some (a - b) | _, _ => None end.
Definition fmul (x y : float) : float :=
  match x, y with Some a, Some b => Some (a * b) | _, _ => None end.
Definition fneg (x : float) : float :=
  match x with Some a => Some (- a) | None => None end.
Definition fdiv (x y : float) : float :=
  match x, y with
  | Some a, Some b => if Req_dec_T b 0 then None else Some (a / b)
  | _, _ => None
  end.
Definition fsqrt (x : float) : float :=
  match x with
  | Some a => if Rlt_dec a 0 then None else Some (sqrt a)
  | None => None
  end.

Definition tensor := list float.

(** [torch.tensor(xs)] of finite Python floats. *)
Definition of_reals (xs : list R) : tensor := map Some xs.

(** [t.sum()] *)
Definition tsum (t : tensor) : float := foldr fadd (Some 0) t.

(** [t.mean()]: the sum over the number of elements; NaN on an empty tensor. *)
Definition tmean (t : tensor) : float :=
  fdiv (tsum t) (Some (INR (length t))).

(** [t.std()] with PyTorch's default arguments, that is with Bessel's
    correction: the square root of the sum of squared deviations over
    [max(0, N - 1)]. *)
Definition tstd (t : tensor) : float :=
  let m := tmean t in
  fsqrt (fdiv (tsum (map (fun x => fmul (fsub x m) (fsub x m)) t))
              (Some (INR (length t - 1)))).

(** Tensor-with-scalar arithmetic ([t - s], [t / s], [-t]). *)
Definition tsub_scalar (t : tensor) (s : float) : tensor := map (fun x => fsub x s) t.
Definition tdiv_scalar (t : tensor) (s : float) : tensor := map (fun x => fdiv x s) t.
Definition tneg (t : tensor) : tensor := map fneg t.

(** Element-wise arithmetic of two one-dimensional tensors, with PyTorch's
    broadcasting: equal sizes combine index by index, a size-one operand is
    stretched, anything else is a [RuntimeError]. *)
Definition broadcast2 (f : float -> float -> float) (a b : tensor) : Res tensor :=
  if Nat.eqb (length a) (length b) then Ok (zip_with f a b)
  else match a, b with
       | [x], _ => Ok (map (f x) b)
       | _, [y] => Ok (map (fun x => f x y) a)
       | _, _ => Raise RuntimeError
       end.

Definition tmul := broadcast2 fmul.
Definition tsub := broadcast2 fsub.

(** ** Configuration *)

Record Config : Type := {
  kl_beta : R;
  learning_rate : R;
  rl_epochs : nat;
  steps_per_epoch : nat;
  batch_size : nat;
  seq_len : nat;
  adam_betas : R * R;
  epsilon : R;
  weight_decay : R;
  epsilon_std : R;
}.

Definition CONFIG : Config := {|
  kl_beta := 0.1;
  learning_rate := 1e-6;
  rl_epochs := 30;
  steps_per_epoch := 100;
  batch_size := 32;
  seq_len := 100;
  adam_betas := (0.9, 0.98);
  epsilon := 1e-8;
  weight_decay := 0.01;
  epsilon_std := 1e-8;
|}.

(** ** The advantage normalisation and the objective *)

(** [(rewards - rewards.mean()) / (rewards.std() + CONFIG["epsilon_std"])],
    the expression of the training step. *)
Definition advantages (cfg : Config) (rewards : tensor) : tensor :=
  tdiv_scalar (tsub_scalar rewards (tmean rewards))
              (fadd (tstd rewards) (Some (epsilon_std cfg))).

Definition policy_objective (log_ratios advs : tensor) : Res float :=
  LET prod <~ tmul advs log_ratios IN
  Ok (fneg (tmean prod)).

Definition kl_penalty (log_ratios : tensor) (beta : R) : float :=
  fmul (Some beta) (tmean log_ratios).

Definition grpo_loss (log_ratios advs : tensor) (beta : R) : Res float :=
  LET po <~ policy_objective log_ratios advs IN
  Ok (fadd po (kl_penalty log_ratios beta)).

(** ** The advantage normalisation in single precision

    [get_reward] returns a tensor of element type [torch.float]: the
    rewards, Python floats in double precision, are rounded to single
    precision, and line 153 computes on them in single precision.  The
    numbers are IEEE 754 binary floats as the Standard Library specifies
    them; every operation rounds to nearest, ties to even.  A sum is taken
    from left to right and the standard deviation in two passes (the mean,
    then the squared deviations from it, divided by [N - 1]).  PyTorch may
    associate a long sum differently; that makes no difference where every
    partial sum is exact, as on a batch of sentinels, nor on three equal
    values. *)
Definition f32 : Type := spec_float.
Definition f64 : Type := spec_float.

Definition f32_add : f32 -> f32 -> f32 := SFadd 24 128.
Definition f32_sub : f32 -> f32 -> f32 := SFsub 24 128.
Definition f32_mul : f32 -> f32 -> f32 := SFmul 24 128.
Definition f32_div : f32 -> f32 -> f32 := SFdiv 24 128.
Definition f32_sqrt : f32 -> f32 := SFsqrt 24 128.

Definition f32_of_nat (n : nat) : f32 := binary_normalize 24 128 (Z.of_nat n) 0 false.

(** The double nearest to the decimal literal [num / den], for integers
    that doubles hold exactly. *)
Definition f64_literal (num den : Z) : f64 :=
  SFdiv 53 1024 (binary_normalize 53 1024 num 0 false)
                (binary_normalize 53 1024 den 0 false).

(** The conversion of a double to single precision. *)
Definition f32_of_f64 (x : f64) : f32 :=
  match x with
  | S754_finite s m e =>
      binary_normalize 24 128 (if s then Z.neg m else Z.pos m) e s
  | _ => x
  end.

Definition f32_sum (t : list f32) : f32 := fold_left f32_add t (S754_zero false).

Definition f32_mean (t : list f32) : f32 := f32_div (f32_sum t) (f32_of_nat (length t)).

Definition f32_std (t : list f32) : f32 :=
  let m := f32_mean t in
  f32_sqrt (f32_div (f32_sum (map (fun x => f32_mul (f32_sub x m) (f32_sub x m)) t))
                    (f32_of_nat (length t - 1))).

(** [torch.tensor(rewards, dtype=torch.float)] *)
Definition f32_tensor (rewards : list f64) : list f32 := map f32_of_f64 rewards.

(** Line 153 on a tensor of single-precision rewards; the Python float
    [epsilon_std] takes the tensor's element type in the addition. *)
Definition advantages_f32 (epsilon_std : f64) (rewards : list f32) : list f32 :=
  let m := f32_mean rewards in
  let s := f32_add (f32_std rewards) (f32_of_f64 epsilon_std) in
  map (fun x => f32_div (f32_sub x m) s) rewards.

(** [CONFIG["epsilon_std"]], the double nearest to 1e-8. *)
Definition CONFIG_epsilon_std_f64 : f64 := f64_literal 1 100000000.

(** ** Effects: a state-and-exception monad

    A computation runs in a state [S] and either returns a value or raises;
    the state reached when the exception was raised is kept, as it is in
    Python (files written before a failure stay written). *)

Definition IO (S A : Type) : Type := S -> Res A * S.

Definition io_ret {S A} (a : A) : IO S A := fun s => (Ok a, s).
Definition io_raise {S A} (e : exn) : IO S A := fun s => (Raise e, s).
Definition io_lift {S A} (r : Res A) : IO S A := fun s => (r, s).

Definition io_bind {S A B} (m : IO S A) (k : A -> IO S B) : IO S B :=
  fun s =>
    match m s with
    | (Ok a, s') => k a s'
    | (Raise e, s') => (Raise e, s')
    end.

Notation "'DO' x <- c 'IN' k" := (io_bind c (fun x => k))
  (at level 10, x name, c at level 100, k at level 200).
Notation "'DO' ' p <- c 'IN' k" := (io_bind c (fun x => match x with p => k end))
  (at level 10, p pattern, c at level 100, k at level 200).

(** [try: body  except Exception as e: handler e]; what is not an
    [Exception] passes through the clause. *)
Definition try_except {S A} (body : IO S A) (handler : exn -> IO S A) : IO S A :=
  fun s =>
    match body s with
    | (Ok a, s') => (Ok a, s')
    | (Raise e, s') => if is_Exception e then handler e s' else (Raise e, s')
    end.

(** [for x in xs: acc = body x acc], stopping at the first exception. *)
Fixpoint io_for {S A B} (xs : list A) (body : A -> B -> IO S B) (acc : B) : IO S B :=
  match xs with
  | [] => io_ret acc
  | x :: rest => DO acc' <- body x acc IN io_for rest body acc'
  end.

(** ** Strings, paths and formatting *)

Definition nl : string := String (ascii_of_nat 10) EmptyString.

(** [str(n)] and [f"{n}"] for a non-negative integer. *)
Definition str_of_nat (n : nat) : string :=
  NilEmpty.string_of_uint (Nat.to_uint n).

Definition str_of_Z (z : Z) : string :=
  NilEmpty.string_of_int (Z.to_int z).

(** The white space that [str.strip()] removes, in the ASCII range. *)
Definition is_space (c : ascii) : bool :=
  let n := nat_of_ascii c in
  (Nat.leb 9 n && Nat.leb n 13) || (Nat.leb 28 n && Nat.leb n 32).

Fixpoint lstrip (s : string) : string :=
  match s with
  | EmptyString => EmptyString
  | String c rest => if is_space c then lstrip rest else s
  end.

Definition rstrip (s : string) : string :=
  String.rev (lstrip (String.rev s)).

Definition strip (s : string) : string := rstrip (lstrip s).

Definition ends_with_slash (s : string) : bool :=
  match String.rev s with
  | String c _ => Ascii.eqb c "/"
  | EmptyString => false
  end.

(** [os.path.join(a, b)] on a POSIX system. *)
Definition os_path_join (a b : string) : string :=
  match b with
  | String c _ =>
      if Ascii.eqb c "/" then b
      else if String.eqb a "" || ends_with_slash a then a +:+ b
      else a +:+ "/" +:+ b
  | EmptyString =>
      if String.eqb a "" || ends_with_slash a then a else a +:+ "/"
  end.

(** [list(enumerate(xs))] *)
Definition enumerate {A} (xs : list A) : list (nat * A) :=
  zip (seq 0 (length xs)) xs.

(** ** Values read back from the predictor's output files *)

(** What [json.load] returns. *)
Inductive json : Type :=
  | JNull
  | JBool (b : bool)
  | JInt (z : Z)
  | JFloat (x : float)
  | JStr (s : string)
  | JList (l : list json)
  | JDict (d : list (string * json)).

(** What [pickle.load] returns, as far as the script looks into it: a
    dictionary, a numeric array, or some other object. *)
Inductive pyobj : Type :=
  | ODict (d : list (string * pyobj))
  | OArray (a : list float)
  | OOther.

Fixpoint assoc {A} (k : string) (d : list (string * A)) : option A :=
  match d with
  | [] => None
  | (k', v) :: rest => if String.eqb k k' then Some v else assoc k rest
  end.

(** Python's treatment of an integer index into a sequence of [n] items:
    negative indices count from the end. *)
Definition py_index (n : nat) (z : Z) : option nat :=
  if (0 <=? z)%Z && (z <? Z.of_nat n)%Z then Some (Z.to_nat z)
  else if (- Z.of_nat n <=? z)%Z && (z <? 0)%Z then Some (Z.to_nat (Z.of_nat n + z))
  else None.

Definition as_index (key : json) : option Z :=
  match key with
  | JInt z => Some z
  | JBool b => Some (if b then 1%Z else 0%Z)
  | _ => None
  end.

(** [obj[key]] on values that came out of [json.load]. *)
Definition json_getitem (obj key : json) : Res json :=
  match obj with
  | JDict d =>
      match key with
      | JStr k => match assoc k d with Some v => Ok v | None => Raise KeyError end
      | JList _ | JDict _ => Raise TypeError
      | _ => Raise KeyError
      end
  | JList l =>
      match as_index key with
      | Some z =>
          match py_index (length l) z with
          | Some i => match l !! i with Some v => Ok v | None => Raise IndexError end
          | None => Raise IndexError
          end
      | None => Raise TypeError
      end
  | JStr s =>
      match as_index key with
      | Some z =>
          match py_index (String.length s) z with
          | Some i =>
              match String.get i s with
              | Some c => Ok (JStr (String c EmptyString))
              | None => Raise IndexError
              end
          | None => Raise IndexError
          end
      | None => Raise TypeError
      end
  | _ => Raise TypeError
  end.

(** [result[key]] and [x.mean()] on an unpickled object. *)
Definition obj_getitem (obj : pyobj) (key : string) : Res pyobj :=
  match obj with
  | ODict d => match assoc key d with Some v => Ok v | None => Raise KeyError end
  | OArray _ => Raise IndexError
  | OOther => Raise TypeError
  end.

Definition obj_mean (obj : pyobj) : Res float :=
  match obj with
  | OArray a => Ok (tmean a)
  | _ => Raise AttributeError
  end.

(** The number a JSON value stands for in arithmetic, if any: integers,
    floats, and the booleans as 0 and 1. *)
Definition json_number (v : json) : option float :=
  match v with
  | JInt z => Some (Some (IZR z))
  | JBool b => Some (Some (if b then 1 else 0))
  | JFloat x => Some x
  | _ => None
  end.

(** [v + y] for a JSON value [v] and a float [y]. *)
Definition json_add_float (v : json) (y : float) : Res float :=
  match json_number v with
  | Some x => Ok (fadd x y)
  | None => Raise TypeError
  end.

(** ** The operating system, as the script uses it

    [W] is the state of everything outside the interpreter: the file system
    and the processes the script starts.  Each operation may change it and
    may raise. *)
Class OSApi (W : Type) : Type := {
  (** [os.makedirs(path, exist_ok=True)] *)
  os_makedirs : string -> IO W unit;
  (** [with open(path, "w") as f: f.write(text)] *)
  write_text : string -> string -> IO W unit;
  (** [with open(path) as f: json.load(f)] *)
  json_load : string -> IO W json;
  (** [with open(path, "rb") as f: pickle.load(f)] *)
  pickle_load : string -> IO W pyobj;
  (** [os.system(command)], returning the exit status *)
  os_system : string -> IO W Z;
  (** the text an f-string produces for a JSON value that is not a string *)
  json_repr : json -> string;
}.

(** [f"{v}"] *)
Definition json_format `{OSApi W} (v : json) : string :=
  match v with
  | JStr s => s
  | JInt z => str_of_Z z
  | _ => json_repr v
  end.

(** ** The scoring bridge *)

Section GetReward.
Context {W : Type} `{OSApi W}.

(** the sentinel appended by the [except] branch *)
Definition failure_reward : float := Some (-100.0).

(** The body of the [try] block for sequence [i], up to the value of
    [reward]. *)
Definition score_sequence (target_sequence : string)
    (af2_predict_fn : string -> string -> IO W unit)
    (output_root : string) (i : nat) (binder_seq : string) : IO W float :=
  let fasta_path := os_path_join output_root ("seq_" +:+ str_of_nat i +:+ ".fasta") in
  DO _ <- write_text fasta_path
            (">target" +:+ nl +:+ strip target_sequence +:+ nl +:+
             ">binder" +:+ nl +:+ strip binder_seq +:+ nl) IN
  let job_dir := os_path_join output_root ("job_" +:+ str_of_nat i) in
  DO _ <- os_makedirs job_dir IN
  DO _ <- af2_predict_fn fasta_path job_dir IN
  DO rank_data <- json_load (os_path_join job_dir "ranking_debug.json") IN
  DO model_name <- io_lift (LET order <~ json_getitem rank_data (JStr "order") IN
                            json_getitem order (JInt 0)) IN
  DO iptm <- io_lift (LET confs <~ json_getitem rank_data (JStr "ranking_confidences") IN
                      json_getitem confs model_name) IN
  DO result <- pickle_load
                 (os_path_join job_dir ("result_" +:+ json_format model_name +:+ ".pkl")) IN
  DO avg_plddt <- io_lift (LET plddt <~ obj_getitem result "plddt" IN obj_mean plddt) IN
  io_lift (json_add_float iptm (fmul (Some 0.1) avg_plddt)).

(** One iteration of the [for] loop: the [try] block appends the reward,
    the [except Exception] branch appends the sentinel. *)
Definition get_reward_iter (target_sequence : string)
    (af2_predict_fn : string -> string -> IO W unit) (output_root : string)
    (item : nat * string) (rewards : list float) : IO W (list float) :=
  let '(i, binder_seq) := item in
  try_except
    (DO reward <- score_sequence target_sequence af2_predict_fn output_root i binder_seq IN
     io_ret (rewards ++ [reward]))
    (fun _ => io_ret (rewards ++ [failure_reward])).

Definition get_reward (sequences : list string) (target_sequence : string)
    (af2_predict_fn : string -> string -> IO W unit) (output_root : string)
    : IO W tensor :=
  DO _ <- os_makedirs output_root IN
  io_for (enumerate sequences)
         (get_reward_iter target_sequence af2_predict_fn output_root) [].
End GetReward.

(** ** The likelihood evaluator *)

(** The tokenizer of the pretrained model, as far as the script uses it. *)
Record Tokenizer : Type := {
  pad_id : nat;
  mask_id : nat;
  tokenizeMSA : string -> list nat;
  alphabet : string;
}.

(** The element type of a tensor of tokens.  [torch.tensor] of a non-empty
    list of token indices is integral; of an empty list it is
    floating-point. *)
Inductive dtype : Type := Integral | Floating.

Definition dtype_of (row : list nat) : dtype :=
  match row with
  | [] => Floating
  | _ => Integral
  end.

(** A two-dimensional tensor of tokens: its element type and its rows. *)
Record token_batch : Type := {
  batch_dtype : dtype;
  batch_rows : list (list nat);
}.

(** A dense three-dimensional tensor of floats: the logits of a batch,
    indexed by row, position and class. *)
Record logits3 : Type := {
  n_batch : nat;
  n_pos : nat;
  n_class : nat;
  logit : nat -> nat -> nat -> float;
}.

(** A model as [calculate_nll] sees it: a callable from the input tokens and
    the lengths to logits, which may raise. *)
Definition callable : Type := token_batch -> list nat -> Res logits3.

Definition rsum (xs : list R) : R := foldr Rplus 0 xs.

Definition max_len (rows : list (list nat)) : nat :=
  foldr Nat.max 0%nat (map length rows).

(** [pad_sequence(rows, batch_first=True, padding_value=pad)]: every row is
    filled on the right up to the longest one, in a tensor that has the
    element type of the first row; an empty list of rows is rejected. *)
Definition pad_sequence (rows : list (list nat)) (pad : nat) : Res token_batch :=
  match rows with
  | [] => Raise RuntimeError
  | first :: _ =>
      Ok {| batch_dtype := dtype_of first;
            batch_rows :=
              map (fun row => row ++ replicate (max_len rows - length row) pad) rows |}
  end.

(** [torch.full_like(t, v)] *)
Definition full_like (t : token_batch) (v : nat) : token_batch :=
  {| batch_dtype := batch_dtype t;
     batch_rows := map (map (fun _ => v)) (batch_rows t) |}.

Definition fexp (x : float) : float :=
  match x with Some a => Some (exp a) | None => None end.

(** The log of the sum of the exponentials of the logits of one position.
    The list is never empty where the loss uses it, so the sum is positive
    when it is finite. *)
Definition logsumexp (xs : list float) : float :=
  match tsum (map fexp xs) with
  | Some s => Some (ln s)
  | None => None
  end.

(** The cross entropy of one position: minus the log-softmax of the logits
    at the target class; zero at an ignored target, whatever the logits; an
    error at a target that is not a class. *)
Definition cross_entropy_at (ignore_index : nat) (lg : logits3)
    (b j target : nat) : Res float :=
  if Nat.eqb target ignore_index then Ok (Some 0)
  else if Nat.ltb target (n_class lg) then
    Ok (fsub (logsumexp (map (logit lg b j) (seq 0 (n_class lg))))
             (logit lg b j target))
  else Raise IndexError.

Fixpoint cross_entropy_row (ignore_index : nat) (lg : logits3)
    (b j : nat) (targets : list nat) : Res tensor :=
  match targets with
  | [] => Ok []
  | t :: rest =>
      LET x <~ cross_entropy_at ignore_index lg b j t IN
      LET xs <~ cross_entropy_row ignore_index lg b (S j) rest IN
      Ok (x :: xs)
  end.

Fixpoint cross_entropy_rows (ignore_index : nat) (lg : logits3)
    (b : nat) (targets : list (list nat)) : Res (list tensor) :=
  match targets with
  | [] => Ok []
  | row :: rest =>
      LET x <~ cross_entropy_row ignore_index lg b 0 row IN
      LET xs <~ cross_entropy_rows ignore_index lg (S b) rest IN
      Ok (x :: xs)
  end.

(** [CrossEntropyLoss(reduction='none', ignore_index=...)] applied to the
    logits, classes moved to the second axis, and to the target tokens: the
    batch sizes of the two must agree, the targets must be integral, and the
    numbers of positions must agree. *)
Definition loss_fn (ignore_index : nat) (lg : logits3)
    (targets : token_batch) : Res (list tensor) :=
  if negb (Nat.eqb (n_batch lg) (length (batch_rows targets))) then Raise ValueError
  else match batch_dtype targets with
       | Floating => Raise RuntimeError
       | Integral =>
           if forallb (fun row => Nat.eqb (length row) (n_pos lg)) (batch_rows targets)
           then cross_entropy_rows ignore_index lg 0 (batch_rows targets)
           else Raise RuntimeError
       end.

Definition calculate_nll (model : callable) (tokenizer : Tokenizer)
    (sequences : list string) : Res tensor :=
  let tokenized_list := map (tokenizeMSA tokenizer) sequences in
  LET tokenized_batch <~ pad_sequence tokenized_list (pad_id tokenizer) IN
  let masked_input := full_like tokenized_batch (mask_id tokenizer) in
  let lengths := map String.length sequences in
  LET logits <~ model masked_input lengths IN
  LET loss_per_token <~ loss_fn (pad_id tokenizer) logits tokenized_batch IN
  let mask := map (map (fun t => if Nat.eqb t (pad_id tokenizer) then Some 0 else Some 1))
                  (batch_rows tokenized_batch) in
  let nll_per_sequence :=
    zip_with (fun loss_row mask_row => tsum (zip_with fmul loss_row mask_row))
             loss_per_token mask in
  Ok nll_per_sequence.

(** [log_ratios] of the training step: the difference of the two
    log-likelihoods, each the negated NLL. *)
Definition log_ratios_of (policy_nll ref_nll : tensor) : Res tensor :=
  let policy_log_likelihood := tneg policy_nll in
  let ref_log_likelihood := tneg ref_nll in
  tsub policy_log_likelihood ref_log_likelihood.

(** ** The training orchestrator

    The interpreter state of [main]: the outside world, the store of
    parameter tensors (both models and the optimizer refer to parameters by
    their location in it), the train/eval flag of each module and the
    optimizer's per-parameter state.  Two further fields are bookkeeping of
    this development and have no counterpart in the script: the log of the
    checkpoints saved so far, each with the number of training steps
    completed when it was saved, and that number itself. *)

(** The value of one parameter tensor is of type [PT]; the optimizer's
    state for one parameter (step count and moment estimates) is of type
    [Slot]. *)
Record Param (PT : Type) : Type := {
  data : PT;
  requires_grad : bool;
  grad : option PT;
}.
Arguments data {PT} _.
Arguments requires_grad {PT} _.
Arguments grad {PT} _.

Record Model : Type := {
  parameters : list nat;   (* locations of the parameters, in order *)
  mode : nat;              (* index of the module's train/eval flag *)
}.

Record Optimizer : Type := {
  param_group : list nat;
  lr : R;
  betas : R * R;
  eps : R;
  opt_weight_decay : R;
}.

Record State (W PT Slot : Type) : Type := {
  world : W;
  heap : gmap nat (Param PT);
  training : list bool;
  opt_state : gmap nat Slot;
  checkpoints : list (string * nat);
  steps_done : nat;
}.
Arguments world {W PT Slot} _.
Arguments heap {W PT Slot} _.
Arguments training {W PT Slot} _.
Arguments opt_state {W PT Slot} _.
Arguments checkpoints {W PT Slot} _.
Arguments steps_done {W PT Slot} _.

(** *** External collaborators

    The pretrained-model loader, the sampler, the network's forward pass,
    automatic differentiation of the loss with respect to the policy's
    parameters, the accumulation of gradients, the AdamW update rule, the
    serialiser and the progress bar.  The forward pass and the sampler
    receive the parameter values: they read the parameters and do not write
    them.  The progress bar writes to the terminal, which may fail; its
    text shows the epoch, the loss of the step and the average reward. *)
Class Torch (W PT Slot : Type) : Type := {
  OA_DM_38M : IO W (list PT * Tokenizer);
  generate_oaardm : list PT -> bool -> Tokenizer -> nat -> nat -> IO W (list string);
  forward : list PT -> bool -> callable;
  autograd :
    list PT -> bool -> Tokenizer -> list string -> tensor -> tensor -> R -> Res (list PT);
  pt_add : PT -> PT -> PT;
  adamw_update : Optimizer -> option Slot -> PT -> PT -> PT * Slot;
  torch_save : list PT -> string -> IO W unit;
  pbar_set_description : nat -> float -> float -> IO W unit;
}.

Section Training.
Context {W PT Slot : Type} `{OSApi W} `{Torch W PT Slot}.

Definition set_world (st : State W PT Slot) (w : W) : State W PT Slot :=
  {| world := w; heap := heap st; training := training st;
     opt_state := opt_state st; checkpoints := checkpoints st;
     steps_done := steps_done st |}.
Definition set_heap (st : State W PT Slot) (h : gmap nat (Param PT)) : State W PT Slot :=
  {| world := world st; heap := h; training := training st;
     opt_state := opt_state st; checkpoints := checkpoints st;
     steps_done := steps_done st |}.
Definition set_training (st : State W PT Slot) (t : list bool) : State W PT Slot :=
  {| world := world st; heap := heap st; training := t;
     opt_state := opt_state st; checkpoints := checkpoints st;
     steps_done := steps_done st |}.
Definition set_opt_state (st : State W PT Slot) (o : gmap nat Slot) : State W PT Slot :=
  {| world := world st; heap := heap st; training := training st;
     opt_state := o; checkpoints := checkpoints st;
     steps_done := steps_done st |}.
Definition set_checkpoints (st : State W PT Slot) (c : list (string * nat))
    : State W PT Slot :=
  {| world := world st; heap := heap st; training := training st;
     opt_state := opt_state st; checkpoints := c;
     steps_done := steps_done st |}.
Definition set_steps_done (st : State W PT Slot) (n : nat) : State W PT Slot :=
  {| world := world st; heap := heap st; training := training st;
     opt_state := opt_state st; checkpoints := checkpoints st;
     steps_done := n |}.

Definition in_world {A} (m : IO W A) : IO (State W PT Slot) A :=
  fun st => let '(r, w') := m (world st) in (r, set_world st w').

(** *** Modules and parameters *)

Definition new_param (v : PT) : Param PT :=
  {| data := v; requires_grad := true; grad := None |}.

Definition store_all (cells : list (nat * Param PT)) (h : gmap nat (Param PT)) : gmap nat (Param PT) :=
  foldr (fun cell acc => <[cell.1 := cell.2]> acc) h cells.

(** [OA_DM_38M()]: a new module whose parameters are new tensors holding
    the pretrained values. *)
Definition load_model : IO (State W PT Slot) (Model * Tokenizer) :=
  DO loaded <- in_world OA_DM_38M IN
  fun st =>
    let locs := fresh_list (length loaded.1) (dom (heap st)) in
    (Ok ({| parameters := locs; mode := length (training st) |}, loaded.2),
     set_training
       (set_heap st (store_all (zip locs (map new_param loaded.1)) (heap st)))
       (training st ++ [true])).

(** the values of [model.parameters()], also the content of
    [model.state_dict()] *)
Definition values_of (m : Model) (st : State W PT Slot) : list PT :=
  omap (fun l => data <$> heap st !! l) (parameters m).

Definition is_training (m : Model) (st : State W PT Slot) : bool :=
  default false (training st !! mode m).

(** [model.train()] and [model.eval()] *)
Definition set_mode (m : Model) (b : bool) : IO (State W PT Slot) unit :=
  fun st => (Ok tt, set_training st (<[mode m := b]> (training st))).

Definition freeze_param (p : Param PT) : Param PT :=
  {| data := data p; requires_grad := false; grad := grad p |}.

(** [for param in model.parameters(): param.requires_grad = False] *)
Definition freeze (m : Model) : IO (State W PT Slot) unit :=
  fun st => (Ok tt, set_heap st (foldr (alter freeze_param) (heap st) (parameters m))).

(** [calculate_nll(model, tokenizer, sequences, device)] on a module of the
    store *)
Definition nll_of (m : Model) (tokenizer : Tokenizer) (sequences : list string)
    : IO (State W PT Slot) tensor :=
  fun st =>
    (calculate_nll (forward (values_of m st) (is_training m st)) tokenizer sequences, st).

(** *** The optimizer *)

Definition AdamW (params : list nat) (cfg : Config) : Optimizer :=
  {| param_group := params;
     lr := learning_rate cfg;
     betas := adam_betas cfg;
     eps := epsilon cfg;
     opt_weight_decay := weight_decay cfg |}.

Definition clear_grad (p : Param PT) : Param PT :=
  {| data := data p; requires_grad := requires_grad p; grad := None |}.

(** [optimizer.zero_grad()] *)
Definition zero_grad (opt : Optimizer) : IO (State W PT Slot) unit :=
  fun st => (Ok tt, set_heap st (foldr (alter clear_grad) (heap st) (param_group opt))).

Definition accumulate (g : PT) (p : Param PT) : Param PT :=
  if requires_grad p then
    {| data := data p; requires_grad := true;
       grad := Some (match grad p with Some g0 => pt_add g0 g | None => g end) |}
  else p.

(** [loss.backward()]: the gradient of the loss reaches the parameters of
    the policy that require it (the reference likelihood was computed
    without gradient tracking); a loss that depends on no such parameter
    is an error. *)
Definition loss_backward (policy : Model) (grads : Res (list PT)) : IO (State W PT Slot) unit :=
  fun st =>
    if forallb (fun l => negb (default false (requires_grad <$> heap st !! l)))
               (parameters policy)
    then (Raise RuntimeError, st)
    else match grads with
         | Raise e => (Raise e, st)
         | Ok gs =>
             (Ok tt,
              set_heap st
                (foldr (fun cell acc => alter (accumulate cell.2) cell.1 acc)
                       (heap st) (zip (parameters policy) gs)))
         end.

Definition with_data (p : Param PT) (v : PT) : Param PT :=
  {| data := v; requires_grad := requires_grad p; grad := grad p |}.

Definition step_param (opt : Optimizer) (st : State W PT Slot) (l : nat) : State W PT Slot :=
  match heap st !! l with
  | Some p =>
      match grad p with
      | Some g =>
          let upd := adamw_update opt (opt_state st !! l) (data p) g in
          set_opt_state (set_heap st (<[l := with_data p upd.1]> (heap st)))
                        (<[l := upd.2]> (opt_state st))
      | None => st
      end
  | None => st
  end.

(** [optimizer.step()]: every parameter of the group that has a gradient
    is updated. *)
Definition optimizer_step (opt : Optimizer) : IO (State W PT Slot) unit :=
  fun st => (Ok tt, foldl (step_param opt) st (param_group opt)).

(** *** The loop *)

Record Ctx : Type := {
  policy_model : Model;
  ref_model : Model;
  tokenizer : Tokenizer;
  optimizer : Optimizer;
}.

Definition target_sequence : string :=
  "IIGGKEVSPHSRPFMASIQYGGHHVCGGVLIDPQWVLTAAHCQYRFTKGQSPTVVLGAHSLSKNEASKQTLEIKKFIPFSRVTSDPQSNDIMLVKLQTAAKLNKHVKMLHIRSKTSLRSGTKCKVTGWGATDPDSLRPSDTLREVTVTVLSRKLCNSQSYYNGDPFITKDMVCAGDAKGQKDSCKGDSGGPLICKGVFHAIVSGGHECGVATKPGIYTLLTKKYQTWIKSNLVPPHTNDYKDDDDK".

Definition output_root : string := "af2_multimer_outputs".

Definition af2_predict_fn (fasta_path output_dir : string) : IO W unit :=
  DO _ <- os_system ("run_af2_multimer.sh " +:+ fasta_path +:+ " " +:+ output_dir) IN
  io_ret tt.

(** [sum(xs) / len(xs)] on a Python list *)
Definition py_average (xs : list float) : Res float :=
  match xs with
  | [] => Raise ZeroDivisionError
  | _ => Ok (fdiv (tsum xs) (Some (INR (length xs))))
  end.

(** Everything up to the first epoch: both models loaded, the tokenizers
    compared, the reference frozen and put in evaluation mode, the
    optimizer built over the policy's parameters. *)
Definition setup (cfg : Config) : IO (State W PT Slot) Ctx :=
  DO policy <- load_model IN
  DO ref <- load_model IN
  DO _ <- io_lift (if String.eqb (alphabet policy.2) (alphabet ref.2)
                   then Ok tt else Raise AssertionError) IN
  DO _ <- freeze ref.1 IN
  DO _ <- set_mode ref.1 false IN
  io_ret {| policy_model := policy.1;
            ref_model := ref.1;
            tokenizer := policy.2;
            optimizer := AdamW (parameters policy.1) cfg |}.

(** The body of the step loop; the accumulators are [total_loss] and
    [all_rewards]. *)
Definition train_step (cfg : Config) (ctx : Ctx) (epoch step : nat)
    (acc : float * list float) : IO (State W PT Slot) (float * list float) :=
  let '(total_loss, all_rewards) := acc in
  DO _ <- set_mode (policy_model ctx) false IN
  DO gen_seqs <- (fun st =>
                    in_world (generate_oaardm (values_of (policy_model ctx) st)
                                (is_training (policy_model ctx) st) (tokenizer ctx)
                                (seq_len cfg) (batch_size cfg)) st) IN
  DO rewards <- in_world (get_reward gen_seqs target_sequence af2_predict_fn output_root) IN
  let all_rewards := all_rewards ++ rewards in
  let advs := advantages cfg rewards in
  DO _ <- set_mode (policy_model ctx) true IN
  DO policy_nll <- nll_of (policy_model ctx) (tokenizer ctx) gen_seqs IN
  DO ref_nll <- nll_of (ref_model ctx) (tokenizer ctx) gen_seqs IN
  DO log_ratios <- io_lift (log_ratios_of policy_nll ref_nll) IN
  DO _ <- zero_grad (optimizer ctx) IN
  DO loss <- io_lift (grpo_loss log_ratios advs (kl_beta cfg)) IN
  DO _ <- (fun st =>
             loss_backward (policy_model ctx)
               (autograd (values_of (policy_model ctx) st)
                  (is_training (policy_model ctx) st) (tokenizer ctx)
                  gen_seqs advs ref_nll (kl_beta cfg)) st) IN
  DO _ <- optimizer_step (optimizer ctx) IN
  let total_loss := fadd total_loss loss in
  DO avg_reward <- io_lift (py_average all_rewards) IN
  DO _ <- in_world (pbar_set_description epoch loss avg_reward) IN
  fun st => (Ok (total_loss, all_rewards), set_steps_done st (S (steps_done st))).

Definition checkpoint_dir (epoch : nat) : string :=
  "evodiff_grpo_checkpoint_epoch_" +:+ str_of_nat (epoch + 1).

(** The body of the epoch loop: the steps, the epoch statistics, then the
    checkpoint. *)
Definition run_epoch (cfg : Config) (ctx : Ctx) (epoch : nat) (_ : unit)
    : IO (State W PT Slot) unit :=
  DO acc <- io_for (seq 0 (steps_per_epoch cfg)) (train_step cfg ctx epoch) (Some 0, []) IN
  DO avg_epoch_loss <- io_lift (if Nat.eqb (steps_per_epoch cfg) 0
                                then Raise ZeroDivisionError
                                else Ok (fdiv acc.1 (Some (INR (steps_per_epoch cfg))))) IN
  DO avg_epoch_reward <- io_lift (py_average acc.2) IN
  let output_dir := checkpoint_dir epoch in
  DO _ <- in_world (os_makedirs output_dir) IN
  DO _ <- (fun st =>
             in_world (torch_save (values_of (policy_model ctx) st)
                         (os_path_join output_dir "policy_model.pt")) st) IN
  fun st => (Ok tt, set_checkpoints st (checkpoints st ++ [(output_dir, steps_done st)])).

Definition training_loop (cfg : Config) (ctx : Ctx) : IO (State W PT Slot) unit :=
  io_for (seq 0 (rl_epochs cfg)) (run_epoch cfg ctx) tt.

Definition main_with (cfg : Config) : IO (State W PT Slot) unit :=
  DO ctx <- setup cfg IN
  training_loop cfg ctx.

Definition main : IO (State W PT Slot) unit := main_with CONFIG.

(** The state in which the interpreter starts: nothing allocated yet. *)
Definition initial_state (w : W) : State W PT Slot :=
  {| world := w; heap := ∅; training := []; opt_state := ∅;
     checkpoints := []; steps_done := 0 |}.
End Training.

(** ** Observing what a run does to the outside world

    To say what a run has written, the world is made to keep a log of it:
    every creation of a directory that succeeded, every [torch.save] that
    succeeded, and every update of the progress bar that succeeded, which
    is the last thing a training step does.  The wrappers below add such a
    log to any world, so that the script, unchanged, runs in the world with
    the log. *)
Inductive event (PT : Type) : Type :=
  | StepShown (epoch : nat)
  | MadeDir (path : string)
  | Saved (values : list PT) (path : string).
Arguments StepShown {PT} epoch.
Arguments MadeDir {PT} path.
Arguments Saved {PT} values path.

(** An operation whose success is entered in the log, and one that leaves
    the log alone. *)
Definition logged {W A PT} (m : IO W A) (ev : event PT) : IO (W * list (event PT)) A :=
  fun wt =>
    let '(r, w') := m wt.1 in
    (r, (w', match r with Ok _ => wt.2 ++ [ev] | Raise _ => wt.2 end)).

Definition unlogged {W A PT} (m : IO W A) : IO (W * list (event PT)) A :=
  fun wt => let '(r, w') := m wt.1 in (r, (w', wt.2)).

Definition traced_os {W : Type} (PT : Type) `{OSApi W} : OSApi (W * list (event PT)) := {|
  os_makedirs := fun path => logged (os_makedirs path) (MadeDir path);
  write_text := fun path text => unlogged (write_text path text);
  json_load := fun path => unlogged (json_load path);
  pickle_load := fun path => unlogged (pickle_load path);
  os_system := fun command => unlogged (os_system command);
  json_repr := json_repr;
|}.

Definition traced_torch {W PT Slot : Type} `{Torch W PT Slot}
    : Torch (W * list (event PT)) PT Slot := {|
  OA_DM_38M := unlogged OA_DM_38M;
  generate_oaardm := fun values training tok len n =>
    unlogged (generate_oaardm values training tok len n);
  forward := forward;
  autograd := autograd;
  pt_add := pt_add;
  adamw_update := adamw_update;
  torch_save := fun values path => logged (torch_save values path) (Saved values path);
  pbar_set_description := fun epoch loss avg_reward =>
    logged (pbar_set_description epoch loss avg_reward) (StepShown epoch);
|}.

(** [main] in the world with the log, started from scratch. *)
Definition traced_main {W PT Slot : Type} `{OSApi W} `{Torch W PT Slot}
    (cfg : Config) (w : W) : Res unit * State (W * list (event PT)) PT Slot :=
  @main_with _ PT Slot (traced_os PT) traced_torch cfg (initial_state (w, [])).

(** The events that concern the training run: everything but the
    directories that [get_reward] creates under its output root. *)
Definition concerns_run {PT} (ev : event PT) : bool :=
  match ev with
  | MadeDir path => negb (String.prefix output_root path)
  | _ => true
  end.

Definition run_events {PT} (log : list (event PT)) : list (event PT) :=
  filter (fun ev => concerns_run ev = true) log.

Definition run_log {W PT Slot} (st : State (W * list (event PT)) PT Slot)
    : list (event PT) :=
  run_events (world st).2.








(** ** Reference definitions and the inputs of the worked examples *)

(** The statistics of a batch of finite reals, as mathematics writes them:
    the arithmetic mean, and the sample standard deviation (divisor
    [N - 1]). *)
Definition rmean (xs : list R) : R := rsum xs / INR (length xs).

Definition rstd (xs : list R) : R :=
  sqrt (rsum (map (fun x => (x - rmean xs) * (x - rmean xs)) xs) / INR (length xs - 1)).

(** The batches of the end-to-end scenarios. *)
Definition ex_log_ratios : list R := [0.5; -0.5; 0.2; -0.2].
Definition ex_rewards : list R := [1.0; 2.0; 3.0; 4.0].

(** ** The scoring bridge, seen from outside *)


(** Whether an outcome passes through the [except Exception] clause of the
    loop: it does when it is not an [Exception]. *)
Definition escapes (r : Res float) : bool :=
  match r with
  | Ok _ => false
  | Raise e => negb (is_Exception e)
  end.

(** The outcomes of the [try] block along a run over [items], each in the
    world left by the iterations before it, and the world at the end.  The
    run ends with the first outcome that escapes the clause. *)
Fixpoint outcomes `{OSApi W} (target : string)
    (predict : string -> string -> IO W unit) (root : string)
    (items : list (nat * string)) (w : W) : list (Res float) * W :=
  match items with
  | [] => ([], w)
  | item :: rest =>
      let step := score_sequence target predict root item.1 item.2 w in
      if escapes step.1 then ([step.1], step.2)
      else
        let later := outcomes target predict root rest step.2 in
        (step.1 :: later.1, later.2)
  end.

(** What [get_reward] makes of the outcomes: the rewards, unless one of
    them escaped. *)
Fixpoint rewards_of (trace : list (Res float)) : Res tensor :=
  match trace with
  | [] => Ok []
  | Ok reward :: rest => LET rewards <~ rewards_of rest IN Ok (reward :: rewards)
  | Raise e :: rest =>
      if is_Exception e
      then LET rewards <~ rewards_of rest IN Ok (failure_reward :: rewards)
      else Raise e
  end.


(** ** A small file system for the examples

    Paths map to directories or to files whose content is already what the
    loaders would make of it.  Directory creation fails on a path taken by a
    file; reading fails on a missing path or on a file of another kind. *)
Inductive node : Type :=
  | Dir
  | TextFile (text : string)
  | JsonFile (content : json)
  | PickleFile (content : pyobj).

Definition ExFS : Type := list (string * node).

Definition ex_makedirs (path : string) : IO ExFS unit :=
  fun fs =>
    match assoc path fs with
    | None => (Ok tt, (path, Dir) :: fs)
    | Some Dir => (Ok tt, fs)
    | Some _ => (Raise OSError, fs)
    end.

Definition ex_write_text (path text : string) : IO ExFS unit :=
  fun fs =>
    match assoc path fs with
    | Some Dir => (Raise OSError, fs)
    | _ => (Ok tt, (path, TextFile text) :: fs)
    end.

Definition ex_json_load (path : string) : IO ExFS json :=
  fun fs =>
    match assoc path fs with
    | Some (JsonFile j) => (Ok j, fs)
    | Some Dir | None => (Raise OSError, fs)
    | Some _ => (Raise ValueError, fs)
    end.

Definition ex_pickle_load (path : string) : IO ExFS pyobj :=
  fun fs =>
    match assoc path fs with
    | Some (PickleFile o) => (Ok o, fs)
    | Some Dir | None => (Raise OSError, fs)
    | Some _ => (Raise UnpicklingError, fs)
    end.

#[export] Instance ExFS_api : OSApi ExFS := {|
  os_makedirs := ex_makedirs;
  write_text := ex_write_text;
  json_load := ex_json_load;
  pickle_load := ex_pickle_load;
  os_system := fun _ fs => (Ok 127%Z, fs);
  json_repr := fun _ => "<object>";
|}.






(** ** The likelihood evaluator, seen from outside *)

Definition finite_nonneg (x : float) : Prop := exists r, x = Some r /\ 0 <= r.
Definition finite_nonpos (x : float) : Prop := exists r, x = Some r /\ r <= 0.

(** A float that is not a finite number below 0: it is a number that is at
    least 0, or it is not finite; and likewise for a float that is not a
    finite number above 0. *)
Definition never_negative (x : float) : Prop := forall r, x = Some r -> 0 <= r.
Definition never_positive (x : float) : Prop := forall r, x = Some r -> r <= 0.

(** The validity mask of one row of tokens, as [calculate_nll] builds it. *)
Definition mask_of (pad : nat) (row : list nat) : tensor :=
  map (fun t => if Nat.eqb t pad then Some 0 else Some 1) row.

(** A model whose logits on a row do not depend on the rest of the batch nor
    on how far the row was padded: evaluated alone on the first [n >= 1]
    masked positions of a row of an integral batch, with that row's length
    argument, it succeeds with one row of [n] positions, the same classes,
    and the same logits at those positions. *)
Definition padding_invariant (model : callable) (mask : nat) : Prop :=
  forall (input : token_batch) (lengths : list nat) (lg : logits3)
         (b width len n : nat),
    model input lengths = Ok lg ->
    batch_dtype input = Integral ->
    batch_rows input !! b = Some (replicate width mask) ->
    lengths !! b = Some len ->
    (1 <= n <= width)%nat ->
    exists lg1,
      model {| batch_dtype := Integral; batch_rows := [replicate n mask] |} [len] = Ok lg1
      /\ n_batch lg1 = 1%nat /\ n_pos lg1 = n /\ n_class lg1 = n_class lg
      /\ forall j k, (j < n)%nat -> logit lg1 0 j k = logit lg b j k.

(** A two-letter tokenizer: [A] is token 0, any other letter token 1. *)
Definition ex_tokenizer : Tokenizer := {|
  pad_id := 9;
  mask_id := 8;
  tokenizeMSA := fun s =>
    map (fun c => if Ascii.eqb c "A" then 0%nat else 1%nat) (list_ascii_of_string s);
  alphabet := "AC";
|}.

(** A model with two classes whose logit for class 0 at a position tells
    whether the input has a further position to the right, as a
    convolution does at the border of its input. *)
Definition ex_border_model : callable :=
  fun input lengths =>
    Ok {| n_batch := length (batch_rows input);
          n_pos := max_len (batch_rows input);
          n_class := 2;
          logit := fun b j k =>
            if Nat.eqb k 0 && Nat.ltb (S j) (max_len (batch_rows input))
            then Some (ln 3) else Some 0 |}.

(** A model with two classes and logits that depend on the class only. *)
Definition ex_uniform_model : callable :=
  fun input lengths =>
    Ok {| n_batch := length (batch_rows input);
          n_pos := max_len (batch_rows input);
          n_class := 2;
          logit := fun b j k => Some (INR k) |}.

(** A model whose logits are all NaN, as a network with NaN parameters
    returns them. *)
Definition ex_nan_model : callable :=
  fun input lengths =>
    Ok {| n_batch := length (batch_rows input);
          n_pos := max_len (batch_rows input);
          n_class := 2;
          logit := fun b j k => None |}.

(** Logits that are all finite numbers. *)
Definition finite_logits (lg : logits3) : Prop :=
  forall b j k, exists r, logit lg b j k = Some r.

(** ** A small training set-up for the examples

    Parameter tensors are natural numbers, the pretrained model has two of
    them, the sampler always proposes the same two sequences, the gradient
    of every parameter is 1 and the optimizer subtracts it. *)
#[export] Instance ex_torch : Torch ExFS nat unit := {|
  OA_DM_38M := fun fs => (Ok ([10; 20]%nat, ex_tokenizer), fs);
  generate_oaardm := fun _ _ _ _ _ fs => (Ok ["AC"; "C"], fs);
  forward := fun _ _ => ex_uniform_model;
  autograd := fun values _ _ _ _ _ _ => Ok (map (fun _ => 1%nat) values);
  pt_add := Nat.add;
  adamw_update := fun _ _ p g => ((p - g)%nat, tt);
  torch_save := fun _ path fs => (Ok tt, (path, TextFile "weights") :: fs);
  pbar_set_description := fun _ _ _ fs => (Ok tt, fs);
|}.

(** A run of two epochs of one step each. *)
Definition ex_config : Config := {|
  kl_beta := 0.1;
  learning_rate := 1e-6;
  rl_epochs := 2;
  steps_per_epoch := 1;
  batch_size := 2;
  seq_len := 2;
  adam_betas := (0.9, 0.98);
  epsilon := 1e-8;
  weight_decay := 0.01;
  epsilon_std := 1e-8;
|}.

Definition ex_initial : State ExFS nat unit := initial_state [].

(** ** Relating the state before and after a computation *)

(** Whatever its outcome, [m] leaves the state related by [P] to the state
    it started in. *)
Definition preserves {S A} (P : S -> S -> Prop) (m : IO S A) : Prop :=
  forall s r s', m s = (r, s') -> P s s'.

(** The parameters outside [locs] are untouched. *)
Definition heap_frame {W PT Slot} (locs : list nat) (st st' : State W PT Slot) : Prop :=
  forall l, l ∉ locs -> heap st' !! l = heap st !! l.

(** The bookkeeping fields are untouched. *)
Definition same_log {W PT Slot} (st st' : State W PT Slot) : Prop :=
  checkpoints st' = checkpoints st /\ steps_done st' = steps_done st.




(** The same set-up with a sampler that fails once the file system holds
    more than five entries, which happens during the second epoch. *)
Definition ex_torch_failing : Torch ExFS nat unit := {|
  OA_DM_38M := fun fs => (Ok ([10; 20]%nat, ex_tokenizer), fs);
  generate_oaardm := fun _ _ _ _ _ fs =>
    if Nat.ltb 5 (length fs) then (Raise RuntimeError, fs) else (Ok ["AC"; "C"], fs);
  forward := fun _ _ => ex_uniform_model;
  autograd := fun values _ _ _ _ _ _ => Ok (map (fun _ => 1%nat) values);
  pt_add := Nat.add;
  adamw_update := fun _ _ p g => ((p - g)%nat, tt);
  torch_save := fun _ path fs => (Ok tt, (path, TextFile "weights") :: fs);
  pbar_set_description := fun _ _ _ fs => (Ok tt, fs);
|}.

(** ** Names used by the further properties *)

(** The two per-sequence locations of [get_reward]: the input file and the
    job directory of sequence [i] under the output root. *)
Definition fasta_path (root : string) (i : nat) : string :=
  os_path_join root ("seq_" +:+ str_of_nat i +:+ ".fasta").

Definition job_dir (root : string) (i : nat) : string :=
  os_path_join root ("job_" +:+ str_of_nat i).

(** The text written to the input file of a sequence. *)
Definition fasta_text (target binder_seq : string) : string :=
  ">target" +:+ nl +:+ strip target +:+ nl +:+
  ">binder" +:+ nl +:+ strip binder_seq +:+ nl.

(** A file system left behind by an earlier step: the predictor's outputs
    for sequence 0 are still in place. *)
Definition ex_stale_outputs : ExFS :=
  [("out/job_0/ranking_debug.json",
    JsonFile (JDict [("order", JList [JStr "model_1"]);
                     ("ranking_confidences", JDict [("model_1", JFloat (Some 0.8))])]));
   ("out/job_0/result_model_1.pkl",
    PickleFile (ODict [("plddt", OArray [Some 90; Some 80])]))].

(** The train/eval flags other than flag [i] are untouched. *)
Definition modes_frame {W PT Slot} (i : nat) (st st' : State W PT Slot) : Prop :=
  forall j, j <> i -> training st' !! j = training st !! j.

(** The same parameters exist and the same ones require gradients. *)
Definition flags_same {W PT Slot} (st st' : State W PT Slot) : Prop :=
  forall l, requires_grad <$> heap st' !! l = requires_grad <$> heap st !! l.

(** A loader that hands out a tokenizer with another alphabet from its
    second call on. *)
Definition ex_torch_mismatch : Torch ExFS nat unit := {|
  OA_DM_38M := fun fs =>
    match fs with
    | [] => (Ok ([10; 20]%nat, ex_tokenizer), [("loaded", Dir)])
    | _ => (Ok ([10; 20]%nat,
                {| pad_id := 9; mask_id := 8;
                   tokenizeMSA := tokenizeMSA ex_tokenizer; alphabet := "ACGT" |}), fs)
    end;
  generate_oaardm := fun _ _ _ _ _ fs => (Ok ["AC"; "C"], fs);
  forward := fun _ _ => ex_uniform_model;
  autograd := fun values _ _ _ _ _ _ => Ok (map (fun _ => 1%nat) values);
  pt_add := Nat.add;
  adamw_update := fun _ _ p g => ((p - g)%nat, tt);
  torch_save := fun _ path fs => (Ok tt, (path, TextFile "weights") :: fs);
  pbar_set_description := fun _ _ _ fs => (Ok tt, fs);
|}.

(** One epoch without any step. *)
Definition ex_config_no_steps : Config := {|
  kl_beta := 0.1;
  learning_rate := 1e-6;
  rl_epochs := 1;
  steps_per_epoch := 0;
  batch_size := 2;
  seq_len := 2;
  adam_betas := (0.9, 0.98);
  epsilon := 1e-8;
  weight_decay := 0.01;
  epsilon_std := 1e-8;
|}.

Section Update.
Context {W PT Slot : Type} `{Torch W PT Slot}.

(** the update of one parameter, as seen at that parameter *)
Definition updated (opt : Optimizer) (slot : option Slot) (p : Param PT) : Param PT :=
  match grad p with
  | Some g => with_data p (adamw_update opt slot (data p) g).1
  | None => p
  end.

Definition updated_slot (opt : Optimizer) (slot : option Slot) (p : option (Param PT))
    : option Slot :=
  match p with
  | Some p =>
      match grad p with
      | Some g => Some (adamw_update opt slot (data p) g).2
      | None => slot
      end
  | None => slot
  end.
End Update.

(** A state in which both parameters of a model still carry the gradient of
    an earlier step. *)
Definition ex_stale_state : State ExFS nat unit := {|
  world := [];
  heap := <[0%nat := {| data := 8%nat; requires_grad := true; grad := Some 1%nat |}]>
          (<[1%nat := {| data := 18%nat; requires_grad := true; grad := Some 1%nat |}]> ∅);
  training := [true];
  opt_state := ∅;
  checkpoints := [];
  steps_done := 1;
|}.

(** The parameter values and the optimizer's state are untouched (gradients
    may differ). *)
Definition data_same {W PT Slot} (st st' : State W PT Slot) : Prop :=
  (forall l, data <$> heap st' !! l = data <$> heap st !! l)
  /\ opt_state st' = opt_state st.

(** A state whose file system holds six entries. *)
Definition ex_full_state : State ExFS nat unit := {|
  world := replicate 6 ("f", Dir);
  heap := heap ex_stale_state;
  training := [true];
  opt_state := ∅;
  checkpoints := [];
  steps_done := 1;
|}.

(** * Properties *)

(** ** Arithmetic of finite tensors *)

Lemma rsum_nil : rsum [] = 0.
Proof. reflexivity. Qed.

Lemma rsum_cons (x : R) (xs : list R) : rsum (x :: xs) = x + rsum xs.
Proof. reflexivity. Qed.

Lemma tsum_of_reals (xs : list R) : tsum (of_reals xs) = Some (rsum xs).
Proof.
  induction xs as [|x xs IH]; [reflexivity|].
  unfold tsum, of_reals in *. simpl. rewrite IH. reflexivity.
Qed.

Lemma fdiv_finite (a b : R) : b <> 0 -> fdiv (Some a) (Some b) = Some (a / b).
Proof.
  intros Hb. unfold fdiv. destruct (Req_dec_T b 0); [contradiction|reflexivity].
Qed.

Lemma fdiv_by_zero (x : float) : fdiv x (Some 0) = None.
Proof.
  destruct x as [a|]; [|reflexivity].
  unfold fdiv. destruct (Req_dec_T 0 0); [reflexivity|contradiction].
Qed.

Lemma fsqrt_finite (a : R) : 0 <= a -> fsqrt (Some a) = Some (sqrt a).
Proof.
  intros Ha. unfold fsqrt. destruct (Rlt_dec a 0); [lra|reflexivity].
Qed.

Lemma INR_length_pos {A} (xs : list A) : (0 < length xs)%nat -> 0 < INR (length xs).
Proof. intros Hn. apply lt_0_INR. lia. Qed.

Lemma tmean_of_reals (xs : list R) :
  (0 < length xs)%nat -> tmean (of_reals xs) = Some (rmean xs).
Proof.
  intros Hn. unfold tmean. rewrite tsum_of_reals.
  unfold of_reals. rewrite length_map.
  apply fdiv_finite. pose proof (INR_length_pos xs Hn). lra.
Qed.

Lemma tmean_empty : tmean [] = None.
Proof. unfold tmean. change (INR (length (@nil float))) with 0. apply fdiv_by_zero. Qed.

Lemma rsum_nonneg (xs : list R) : Forall (fun x => 0 <= x) xs -> 0 <= rsum xs.
Proof.
  induction 1 as [|x xs Hx _ IH]; [rewrite rsum_nil; lra|].
  rewrite rsum_cons. lra.
Qed.

Lemma squares_nonneg (m : R) (xs : list R) :
  Forall (fun x => 0 <= x) (map (fun x => (x - m) * (x - m)) xs).
Proof.
  apply Forall_forall. intros y Hy. apply list_elem_of_In, in_map_iff in Hy.
  destruct Hy as (x & <- & _). apply Rle_0_sqr.
Qed.

Lemma sq_dev_nonneg (xs : list R) :
  0 <= rsum (map (fun x => (x - rmean xs) * (x - rmean xs)) xs) / INR (length xs - 1).
Proof.
  pose proof (rsum_nonneg _ (squares_nonneg (rmean xs) xs)) as Hs.
  destruct (Nat.eq_dec (length xs - 1)%nat 0%nat) as [E|E].
  - rewrite E. simpl. unfold Rdiv. rewrite Rinv_0. lra.
  - apply Rmult_le_pos; [exact Hs|].
    apply Rlt_le, Rinv_0_lt_compat, lt_0_INR. lia.
Qed.

Lemma tstd_of_reals (xs : list R) :
  (2 <= length xs)%nat -> tstd (of_reals xs) = Some (rstd xs).
Proof.
  intros Hn. unfold tstd. rewrite tmean_of_reals by lia.
  unfold of_reals at 1. rewrite map_map. simpl.
  change (map (fun x => Some ((x - rmean xs) * (x - rmean xs))) xs)
    with (map (fun x => Some x) (map (fun x => (x - rmean xs) * (x - rmean xs)) xs))
    || rewrite <- (map_map (fun x => (x - rmean xs) * (x - rmean xs)) Some).
  fold (of_reals (map (fun x => (x - rmean xs) * (x - rmean xs)) xs)).
  rewrite tsum_of_reals.
  unfold of_reals. rewrite length_map.
  rewrite fdiv_finite.
  - apply fsqrt_finite, sq_dev_nonneg.
  - apply not_0_INR. lia.
Qed.

Lemma tstd_singleton (x : float) : tstd [x] = None.
Proof.
  unfold tstd. simpl length. simpl INR.
  rewrite fdiv_by_zero. reflexivity.
Qed.

Lemma rstd_nonneg (xs : list R) : 0 <= rstd xs.
Proof. apply sqrt_pos. Qed.

(** The advantages of a batch of at least two finite rewards are finite and
    given by the usual formula. *)
Lemma advantages_of_reals (cfg : Config) (xs : list R) :
  (2 <= length xs)%nat -> 0 < epsilon_std cfg ->
  advantages cfg (of_reals xs) =
  of_reals (map (fun x => (x - rmean xs) / (rstd xs + epsilon_std cfg)) xs).
Proof.
  intros Hn He. unfold advantages.
  rewrite tmean_of_reals by lia. rewrite tstd_of_reals by lia.
  unfold tdiv_scalar, tsub_scalar, of_reals. simpl fadd.
  rewrite !map_map. apply map_ext. intros x. simpl.
  apply fdiv_finite. pose proof (rstd_nonneg xs). lra.
Qed.

Lemma CONFIG_epsilon_std_pos : 0 < epsilon_std CONFIG.
Proof. simpl. lra. Qed.








Lemma rsum_replicate (n : nat) (c : R) : rsum (replicate n c) = INR n * c.
Proof.
  induction n as [|n IH].
  - simpl. lra.
  - change (rsum (replicate (S n) c)) with (c + rsum (replicate n c)).
    rewrite IH, S_INR. lra.
Qed.

Lemma rmean_replicate (n : nat) (c : R) : (0 < n)%nat -> rmean (replicate n c) = c.
Proof.
  intros Hn. unfold rmean. rewrite rsum_replicate, length_replicate.
  field. apply not_0_INR. lia.
Qed.

Lemma map_replicate {A B} (f : A -> B) (n : nat) (x : A) :
  map f (replicate n x) = replicate n (f x).
Proof. induction n as [|n IH]; [reflexivity|]. simpl. rewrite IH. reflexivity. Qed.

Lemma rstd_replicate (n : nat) (c : R) : (0 < n)%nat -> rstd (replicate n c) = 0.
Proof.
  intros Hn. unfold rstd. rewrite rmean_replicate by exact Hn.
  rewrite map_replicate, rsum_replicate.
  replace (INR n * ((c - c) * (c - c)) / INR (length (replicate n c) - 1)) with 0
    by (unfold Rdiv; lra).
  apply sqrt_0.
Qed.

Lemma Forall_eq_replicate (c : R) (xs : list R) :
  Forall (fun x => x = c) xs -> xs = replicate (length xs) c.
Proof.
  induction 1 as [|x xs Hx _ IH]; [reflexivity|].
  simpl. rewrite <- IH, Hx. reflexivity.
Qed.

Lemma zip_with_of_reals (f : R -> R -> R) (g : float -> float -> float)
    (xs ys : list R) :
  (forall a b, g (Some a) (Some b) = Some (f a b)) ->
  zip_with g (of_reals xs) (of_reals ys) = of_reals (zip_with f xs ys).
Proof.
  intros Hg. revert ys. induction xs as [|x xs IH]; intros [|y ys]; try reflexivity.
  unfold of_reals in *. simpl. rewrite Hg, IH. reflexivity.
Qed.

Lemma broadcast2_same_length (f : float -> float -> float) (a b : tensor) :
  length a = length b -> broadcast2 f a b = Ok (zip_with f a b).
Proof.
  intros E. unfold broadcast2. rewrite E, Nat.eqb_refl. reflexivity.
Qed.

Lemma rmean_ex_rewards : rmean ex_rewards = 2.5.
Proof. unfold rmean, ex_rewards, rsum. simpl. lra. Qed.

Lemma rstd_ex_rewards : rstd ex_rewards = sqrt (5 / 3).
Proof.
  unfold rstd. rewrite rmean_ex_rewards. f_equal.
  unfold ex_rewards, rsum. simpl. lra.
Qed.

Lemma sqrt_5_3_bounds : 1.2909 < sqrt (5 / 3) < 1.2911.
Proof.
  assert (Hlo : sqrt (1.2909 * 1.2909) < sqrt (5 / 3))
    by (apply sqrt_lt_1_alt; lra).
  assert (Hhi : sqrt (5 / 3) < sqrt (1.2911 * 1.2911))
    by (apply sqrt_lt_1_alt; lra).
  rewrite sqrt_square in Hlo, Hhi by lra. lra.
Qed.

(** A quotient [a / d] of a known numerator by a divisor known within
    bounds. *)
Lemma quotient_bounds (a d lo hi : R) :
  0 < d -> lo * d < a -> a < hi * d -> lo < a / d < hi.
Proof.
  intros Hd Hlo Hhi. split.
  - apply Rmult_lt_reg_r with d; [exact Hd|].
    replace (a / d * d) with a by (field; lra). exact Hlo.
  - apply Rmult_lt_reg_r with d; [exact Hd|].
    replace (a / d * d) with a by (field; lra). exact Hhi.
Qed.

Lemma advantages_ex_rewards :
  advantages CONFIG (of_reals ex_rewards) =
  of_reals [ (1.0 - 2.5) / (sqrt (5 / 3) + 1e-8); (2.0 - 2.5) / (sqrt (5 / 3) + 1e-8);
             (3.0 - 2.5) / (sqrt (5 / 3) + 1e-8); (4.0 - 2.5) / (sqrt (5 / 3) + 1e-8) ].
Proof.
  rewrite advantages_of_reals; [|simpl; lia|apply CONFIG_epsilon_std_pos].
  rewrite rmean_ex_rewards, rstd_ex_rewards. reflexivity.
Qed.

(** ** The objective (claim C1) *)

(** C1.  For log-ratios and advantages of the same size and any KL weight,
    [grpo_loss] returns minus the mean of the element-wise products plus the
    weight times the mean of the log-ratios: as a float computation for all
    tensors, and as the real number given by the formula when the inputs are
    finite and non-empty.  For the log-ratios [0.5, -0.5, 0.2, -0.2] the KL
    term is zero and the loss is the sum of the policy term and that zero. *)
Theorem grpo_loss_is_formula (log_ratios advs : tensor) (beta : R)
    (Hlen : length log_ratios = length advs) :
  grpo_loss log_ratios advs beta
    = Ok (fadd (fneg (tmean (zip_with fmul advs log_ratios)))
               (fmul (Some beta) (tmean log_ratios)))
  /\ (forall lrs avs : list R,
        log_ratios = of_reals lrs -> advs = of_reals avs -> lrs <> [] ->
        grpo_loss log_ratios advs beta
          = Ok (Some (- (rsum (zip_with Rmult avs lrs) / INR (length lrs))
                      + beta * (rsum lrs / INR (length lrs)))))
  /\ (log_ratios = of_reals ex_log_ratios ->
        kl_penalty log_ratios beta = Some 0
        /\ exists po, policy_objective log_ratios advs = Ok po
                      /\ grpo_loss log_ratios advs beta = Ok (fadd po (Some 0))).
Proof.
  assert (Hgen : grpo_loss log_ratios advs beta
    = Ok (fadd (fneg (tmean (zip_with fmul advs log_ratios)))
               (fmul (Some beta) (tmean log_ratios)))).
  { unfold grpo_loss, policy_objective, tmul, kl_penalty.
    rewrite broadcast2_same_length by (symmetry; exact Hlen). reflexivity. }
  split; [exact Hgen|]. split.
  - intros lrs avs -> -> Hne. rewrite Hgen.
    unfold of_reals in Hlen. rewrite !length_map in Hlen.
    assert (Hn : (0 < length lrs)%nat) by (destruct lrs; [congruence|simpl; lia]).
    rewrite (zip_with_of_reals Rmult) by reflexivity.
    rewrite !tmean_of_reals; [|exact Hn|rewrite length_zip_with; lia].
    unfold rmean. rewrite length_zip_with.
    replace (length avs `min` length lrs)%nat with (length lrs) by lia.
    reflexivity.
  - intros ->.
    assert (Hkl : kl_penalty (of_reals ex_log_ratios) beta = Some 0).
    { unfold kl_penalty. rewrite tmean_of_reals by (simpl; lia).
      simpl. f_equal. unfold rmean, ex_log_ratios, rsum. simpl. lra. }
    split; [exact Hkl|].
    exists (fneg (tmean (zip_with fmul advs (of_reals ex_log_ratios)))).
    split.
    + unfold policy_objective, tmul.
      rewrite broadcast2_same_length by (symmetry; exact Hlen). reflexivity.
    + rewrite Hgen. fold (kl_penalty (of_reals ex_log_ratios) beta).
      rewrite Hkl. reflexivity.
Qed.

Lemma grpo_loss_is_formula_witness :
  grpo_loss (of_reals ex_log_ratios) (advantages CONFIG (of_reals ex_rewards)) 0.1
    = Ok (fadd (fneg (tmean (zip_with fmul (advantages CONFIG (of_reals ex_rewards))
                                      (of_reals ex_log_ratios))))
               (fmul (Some 0.1) (tmean (of_reals ex_log_ratios)))).
Proof.
  apply (grpo_loss_is_formula (of_reals ex_log_ratios)
           (advantages CONFIG (of_reals ex_rewards)) 0.1).
  reflexivity.
Defined.

(** ** The advantage normalisation (claims C2, C4, C5) *)

(** C2, as stated: on the rewards [1, 2, 3, 4] the standard deviation would
    be 1.118 and the advantages [-1.34, -0.45, 0.45, 1.34], to two decimal
    places.  The code's standard deviation is the sample one (divisor
    [N - 1]), about 1.291, so neither holds. *)
Lemma advantages_1234_not_as_stated :
  ~ (exists s a1 a2 a3 a4,
       tstd (of_reals ex_rewards) = Some s
       /\ advantages CONFIG (of_reals ex_rewards) = of_reals [a1; a2; a3; a4]
       /\ Rabs (s - 1.118) <= 0.01
       /\ Rabs (a1 - -1.34) <= 0.01 /\ Rabs (a2 - -0.45) <= 0.01
       /\ Rabs (a3 - 0.45) <= 0.01 /\ Rabs (a4 - 1.34) <= 0.01).
Proof.
  intros (s & a1 & a2 & a3 & a4 & Hs & _ & Hclose & _).
  rewrite tstd_of_reals in Hs by (simpl; lia).
  rewrite rstd_ex_rewards in Hs. injection Hs as <-.
  pose proof sqrt_5_3_bounds as [Hlo _].
  unfold Rabs in Hclose. destruct (Rcase_abs (sqrt (5 / 3) - 1.118)); lra.
Qed.

(** C2, amended: on the rewards [1, 2, 3, 4] the mean is 2.5, the standard
    deviation used by the code (PyTorch's default, with Bessel's correction)
    is about 1.291, and the advantages are about
    [-1.162, -0.387, 0.387, 1.162]. *)
Theorem advantages_1234 :
  tmean (of_reals ex_rewards) = Some 2.5
  /\ exists s a1 a2 a3 a4,
       tstd (of_reals ex_rewards) = Some s
       /\ advantages CONFIG (of_reals ex_rewards) = of_reals [a1; a2; a3; a4]
       /\ Rabs (s - 1.291) < 0.001
       /\ Rabs (a1 - -1.162) < 0.001 /\ Rabs (a2 - -0.387) < 0.001
       /\ Rabs (a3 - 0.387) < 0.001 /\ Rabs (a4 - 1.162) < 0.001.
Proof.
  split.
  - rewrite tmean_of_reals by (simpl; lia). rewrite rmean_ex_rewards. reflexivity.
  - pose proof sqrt_5_3_bounds as [Hlo Hhi].
    set (d := sqrt (5 / 3) + 1e-8).
    assert (Hd : 0 < d) by (unfold d; lra).
    assert (B1 : -1.1625 < (1.0 - 2.5) / d < -1.1615)
      by (apply quotient_bounds; unfold d; lra).
    assert (B2 : -0.388 < (2.0 - 2.5) / d < -0.3865)
      by (apply quotient_bounds; unfold d; lra).
    assert (B3 : 0.3865 < (3.0 - 2.5) / d < 0.388)
      by (apply quotient_bounds; unfold d; lra).
    assert (B4 : 1.1615 < (4.0 - 2.5) / d < 1.1625)
      by (apply quotient_bounds; unfold d; lra).
    exists (sqrt (5 / 3)), ((1.0 - 2.5) / d), ((2.0 - 2.5) / d),
           ((3.0 - 2.5) / d), ((4.0 - 2.5) / d).
    split; [|split].
    + rewrite tstd_of_reals by (simpl; lia). rewrite rstd_ex_rewards. reflexivity.
    + apply advantages_ex_rewards.
    + repeat split; apply Rabs_def1; lra.
Qed.

(** C4, as stated: on a batch of equal rewards every advantage would be 0.
    The rewards are a single-precision tensor: on [5.55, 5.55, 5.55] the
    rounded sum is not three times the value, the mean is one unit in the
    last place above it, the standard deviation is about 5.84e-7, and every
    advantage is -13467925 / 2^24, about -0.80275. *)
Lemma advantages_of_constant_batch_in_float32 :
  let rewards := f32_tensor (replicate 3 (f64_literal 555 100)) in
  rewards = replicate 3 (S754_finite false 11639194 (-21))
  /\ f32_mean rewards = S754_finite false 11639195 (-21)
  /\ f32_std rewards = S754_finite false 10273905 (-44)
  /\ advantages_f32 CONFIG_epsilon_std_f64 rewards
     = replicate 3 (S754_finite true 13467925 (-24))
  /\ ~ Forall (fun a => SFeqb a (S754_zero false) = true)
              (advantages_f32 CONFIG_epsilon_std_f64 rewards).
Proof.
  intros rewards. repeat split; try (vm_compute; reflexivity).
  intros Hall. apply Forall_inv in Hall. vm_compute in Hall. discriminate.
Qed.

(** C4, amended.  In exact real arithmetic, on a batch of at least two
    rewards that all have the same value, the divisor [std + eps] is a
    finite non-zero number (it is [eps] itself), every advantage is defined,
    and every advantage is 0.  In the single-precision arithmetic of the
    program this holds when the sums of the batch are exact, as on the batch
    of the configured size all of whose rewards are the sentinel -100. *)
Theorem advantages_of_constant_batch (rewards : list R) (c : R)
    (Hsize : (2 <= length rewards)%nat)
    (Hsame : Forall (fun r => r = c) rewards) :
  (exists d, fadd (tstd (of_reals rewards)) (Some (epsilon_std CONFIG)) = Some d
             /\ d <> 0)
  /\ length (advantages CONFIG (of_reals rewards)) = length rewards
  /\ Forall (fun a => a = Some 0) (advantages CONFIG (of_reals rewards))
  /\ advantages_f32 CONFIG_epsilon_std_f64
       (f32_tensor (replicate (batch_size CONFIG) (f64_literal (-100) 1)))
     = replicate (batch_size CONFIG) (S754_zero false).
Proof.
  pose proof CONFIG_epsilon_std_pos as He.
  apply Forall_eq_replicate in Hsame.
  set (n := length rewards) in *.
  assert (Hstd : rstd rewards = 0) by (rewrite Hsame; apply rstd_replicate; lia).
  assert (Hmean : rmean rewards = c) by (rewrite Hsame; apply rmean_replicate; lia).
  split; [|split; [|split]]; [| | |vm_compute; reflexivity].
  - exists (0 + epsilon_std CONFIG). rewrite tstd_of_reals by exact Hsize.
    rewrite Hstd. split; [reflexivity|lra].
  - unfold advantages, tdiv_scalar, tsub_scalar, of_reals.
    rewrite !length_map. reflexivity.
  - rewrite advantages_of_reals by assumption.
    rewrite Hstd, Hmean. apply Forall_forall. intros a Ha.
    unfold of_reals in Ha. rewrite map_map in Ha.
    apply list_elem_of_In, in_map_iff in Ha. destruct Ha as (x & <- & Hx).
    rewrite Hsame in Hx. apply list_elem_of_In, elem_of_replicate in Hx.
    destruct Hx as [-> _]. f_equal. unfold Rdiv. lra.
Qed.

Lemma advantages_of_constant_batch_witness :
  Forall (fun a => a = Some 0) (advantages CONFIG (of_reals [7; 7; 7])).
Proof.
  apply (advantages_of_constant_batch [7; 7; 7] 7).
  - simpl. lia.
  - repeat constructor.
Defined.



(** ** The scoring bridge (claim C3) *)

Lemma io_bind_Ok {S A B} (m : IO S A) (k : A -> IO S B) (s s' : S) (b : B) :
  io_bind m k s = (Ok b, s') ->
  exists a s1, m s = (Ok a, s1) /\ k a s1 = (Ok b, s').
Proof.
  unfold io_bind. destruct (m s) as [[a|e] s1]; intros E; [eauto|discriminate].
Qed.

Lemma io_lift_Ok {S A} (r : Res A) (s s' : S) (a : A) :
  io_lift r s = (Ok a, s') -> r = Ok a /\ s' = s.
Proof. unfold io_lift. intros E. injection E as -> ->. auto. Qed.

Lemma res_bind_Ok {A B} (r : Res A) (k : A -> Res B) (b : B) :
  res_bind r k = Ok b -> exists a, r = Ok a /\ k a = Ok b.
Proof. destruct r as [a|e]; simpl; intros E; [eauto|discriminate]. Qed.

Section GetRewardFacts.
Context {W : Type} `{OSApi W}.
Variables (target : string) (predict : string -> string -> IO W unit) (root : string).

(** An iteration appends the reward of the outcome of its [try] block,
    unless the outcome is not an [Exception]: then the iteration raises it. *)
Lemma get_reward_iter_result (item : nat * string) (rewards : list float) (w : W) :
  get_reward_iter target predict root item rewards w
  = (LET new <~ rewards_of [(score_sequence target predict root item.1 item.2 w).1] IN
     Ok (rewards ++ new),
     (score_sequence target predict root item.1 item.2 w).2).
Proof.
  destruct item as [i s]. unfold get_reward_iter, try_except, io_bind, io_ret. simpl.
  destruct (score_sequence target predict root i s w) as [[r|e] w']; simpl;
    [reflexivity|].
  destruct (is_Exception e); reflexivity.
Qed.

Lemma get_reward_loop_outcomes (items : list (nat * string)) (rewards : list float) (w : W) :
  io_for items (get_reward_iter target predict root) rewards w
  = (LET new <~ rewards_of (outcomes target predict root items w).1 IN Ok (rewards ++ new),
     (outcomes target predict root items w).2).
Proof.
  revert rewards w. induction items as [|item items IH]; intros rewards w.
  - simpl. unfold io_ret. rewrite app_nil_r. reflexivity.
  - simpl. unfold io_bind. rewrite get_reward_iter_result.
    destruct (score_sequence target predict root item.1 item.2 w) as [[r|e] w'];
      simpl.
    + rewrite IH. simpl.
      destruct (rewards_of (outcomes target predict root items w').1); simpl;
        [rewrite <- app_assoc|]; reflexivity.
    + destruct (is_Exception e) eqn:He; simpl; rewrite ?He; simpl; [|reflexivity].
      rewrite IH. simpl.
      destruct (rewards_of (outcomes target predict root items w').1); simpl;
        [rewrite <- app_assoc|]; reflexivity.
Qed.



Lemma length_outcomes (items : list (nat * string)) (w : W) :
  Forall (fun o => escapes o = false) (outcomes target predict root items w).1 ->
  length (outcomes target predict root items w).1 = length items.
Proof.
  revert w. induction items as [|item items IH]; intros w Hall; simpl in *;
    [reflexivity|].
  destruct (escapes (score_sequence target predict root item.1 item.2 w).1) eqn:Hesc.
  - simpl in Hall. apply Forall_inv in Hall. congruence.
  - simpl in *. apply Forall_inv_tail in Hall. rewrite IH by exact Hall. reflexivity.
Qed.



End GetRewardFacts.






(** ** The likelihood evaluator (claims C6, C7, C10) *)

Lemma fadd_assoc (x y z : float) : fadd x (fadd y z) = fadd (fadd x y) z.
Proof.
  destruct x, y, z; simpl; try reflexivity. f_equal. lra.
Qed.

Lemma fadd_zero_r (x : float) : fadd x (Some 0) = x.
Proof. destruct x; simpl; [f_equal; lra|reflexivity]. Qed.

Lemma tsum_app (a b : tensor) : tsum (a ++ b) = fadd (tsum a) (tsum b).
Proof.
  induction a as [|x a IH].
  - simpl. destruct (tsum b) as [r|]; simpl; [f_equal; lra|reflexivity].
  - change (tsum ((x :: a) ++ b)) with (fadd x (tsum (a ++ b))).
    rewrite IH. change (tsum (x :: a)) with (fadd x (tsum a)).
    apply fadd_assoc.
Qed.

Lemma tsum_cons_Some (x : float) (t : tensor) (s : R) :
  tsum (x :: t) = Some s -> exists a s', x = Some a /\ tsum t = Some s' /\ s = a + s'.
Proof.
  change (tsum (x :: t)) with (fadd x (tsum t)).
  destruct x as [a|], (tsum t) as [s'|]; simpl; try discriminate.
  intros E. injection E as <-. eauto.
Qed.

(** A finite sum of exponentials is positive and dominates each of them. *)
Lemma tsum_fexp_nonneg (xs : list float) (s : R) :
  tsum (map fexp xs) = Some s -> 0 <= s.
Proof.
  revert s. induction xs as [|x xs IH]; intros s E.
  - injection E as <-. lra.
  - rewrite map_cons in E. apply tsum_cons_Some in E as (a & s' & Ha & Hs' & ->).
    destruct x as [z|]; [|discriminate]. injection Ha as <-.
    pose proof (exp_pos z). specialize (IH s' Hs'). lra.
Qed.

Lemma tsum_fexp_ge (xs : list float) (s z : R) :
  tsum (map fexp xs) = Some s -> In (Some z) xs -> exp z <= s /\ 0 < s.
Proof.
  revert s. induction xs as [|x xs IH]; intros s E Hin; [destruct Hin|].
  rewrite map_cons in E. apply tsum_cons_Some in E as (a & s' & Ha & Hs' & ->).
  destruct x as [zx|]; [|discriminate]. injection Ha as <-.
  pose proof (exp_pos zx). pose proof (tsum_fexp_nonneg xs s' Hs').
  destruct Hin as [Hin|Hin].
  - injection Hin as ->. lra.
  - destruct (IH s' Hs' Hin). lra.
Qed.

Lemma tsum_fexp_finite (xs : list float) :
  Forall (fun x => exists r, x = Some r) xs -> exists s, tsum (map fexp xs) = Some s.
Proof.
  induction 1 as [|x xs (r & ->) _ (s & IH)]; [exists 0; reflexivity|].
  exists (exp r + s). rewrite map_cons.
  change (tsum (fexp (Some r) :: map fexp xs)) with (fadd (fexp (Some r)) (tsum (map fexp xs))).
  rewrite IH. reflexivity.
Qed.

(** The loss of a position is never a negative number. *)
Lemma cross_entropy_at_never_negative (pad : nat) (lg : logits3) (b j t : nat) (x : float) :
  cross_entropy_at pad lg b j t = Ok x -> never_negative x.
Proof.
  unfold cross_entropy_at, logsumexp. destruct (Nat.eqb t pad).
  - intros E r Hr. injection E as <-. injection Hr as <-. lra.
  - destruct (Nat.ltb t (n_class lg)) eqn:Ht; [|discriminate].
    intros E r Hr. injection E as <-. apply Nat.ltb_lt in Ht.
    destruct (tsum (map fexp (map (logit lg b j) (seq 0 (n_class lg))))) as [s|] eqn:Hs;
      [|discriminate].
    destruct (logit lg b j t) as [z|] eqn:Hz; [|discriminate].
    destruct (tsum_fexp_ge _ s z Hs) as [Hge Hpos].
    { rewrite <- Hz. apply in_map, in_seq. lia. }
    injection Hr as <-.
    assert (z <= ln s); [|lra].
    rewrite <- (ln_exp z). pose proof (exp_pos z).
    destruct Hge as [Hlt|Heq]; [apply Rlt_le, ln_increasing; assumption|].
    rewrite Heq. apply Rle_refl.
Qed.

(** With finite logits it is a number. *)
Lemma cross_entropy_at_finite (pad : nat) (lg : logits3) (b j t : nat) (x : float) :
  finite_logits lg -> cross_entropy_at pad lg b j t = Ok x -> finite_nonneg x.
Proof.
  intros Hfin E.
  pose proof (cross_entropy_at_never_negative pad lg b j t x E) as Hnn.
  assert (Hsome : exists r, x = Some r); [|destruct Hsome as (r & ->); exists r; auto].
  unfold cross_entropy_at, logsumexp in E. destruct (Nat.eqb t pad).
  - injection E as <-. eauto.
  - destruct (Nat.ltb t (n_class lg)) eqn:Ht; [|discriminate].
    injection E as <-.
    destruct (tsum_fexp_finite (map (logit lg b j) (seq 0 (n_class lg)))) as (s & Hs).
    { apply Forall_forall. intros y Hy. apply list_elem_of_In, in_map_iff in Hy.
      destruct Hy as (k & <- & _). apply Hfin. }
    destruct (Hfin b j t) as (z & Hz).
    rewrite Hs, Hz. simpl. eauto.
Qed.

Section LossRows.
Variables (P : float -> Prop) (pad : nat) (lg : logits3).
Hypothesis at_P : forall b j t x, cross_entropy_at pad lg b j t = Ok x -> P x.

Lemma cross_entropy_row_all (b : nat) (targets : list nat) (j : nat) (row : tensor) :
  cross_entropy_row pad lg b j targets = Ok row ->
  length row = length targets /\ Forall P row.
Proof using at_P.
  revert j row. induction targets as [|t targets IH]; intros j row E; simpl in E.
  - injection E as <-. split; [reflexivity|constructor].
  - apply res_bind_Ok in E as (x & Hx & E).
    apply res_bind_Ok in E as (xs & Hxs & E). injection E as <-.
    apply IH in Hxs as [Hlen Hall]. split; [simpl; congruence|].
    constructor; [eapply at_P; exact Hx|exact Hall].
Qed.

Lemma cross_entropy_rows_all (targets : list (list nat)) (b : nat) (rows : list tensor) :
  cross_entropy_rows pad lg b targets = Ok rows ->
  length rows = length targets /\ Forall (Forall P) rows.
Proof using at_P.
  revert b rows. induction targets as [|t targets IH]; intros b rows E; simpl in E.
  - injection E as <-. split; [reflexivity|constructor].
  - apply res_bind_Ok in E as (x & Hx & E).
    apply res_bind_Ok in E as (xs & Hxs & E). injection E as <-.
    apply IH in Hxs as [Hlen Hall]. split; [simpl; congruence|].
    constructor; [eapply cross_entropy_row_all; exact Hx|exact Hall].
Qed.
End LossRows.

Lemma masked_sum_nonneg (loss_row mask_row : tensor) :
  Forall finite_nonneg loss_row -> Forall finite_nonneg mask_row ->
  finite_nonneg (tsum (zip_with fmul loss_row mask_row)).
Proof.
  intros Hl. revert mask_row.
  induction Hl as [|x loss_row (a & -> & Ha) _ IH]; intros mask_row Hm.
  - exists 0. split; [reflexivity|lra].
  - destruct Hm as [|y mask_row (m & -> & Hm0) Hm].
    + exists 0. split; [reflexivity|lra].
    + destruct (IH mask_row Hm) as (s & Hs & Hs0).
      change (tsum (zip_with fmul (Some a :: loss_row) (Some m :: mask_row)))
        with (fadd (Some (a * m)) (tsum (zip_with fmul loss_row mask_row))).
      rewrite Hs. exists (a * m + s). split; [reflexivity|].
      pose proof (Rmult_le_pos a m Ha Hm0). lra.
Qed.

Lemma masked_sum_never_negative (loss_row mask_row : tensor) :
  Forall never_negative loss_row -> Forall finite_nonneg mask_row ->
  never_negative (tsum (zip_with fmul loss_row mask_row)).
Proof.
  intros Hl. revert mask_row.
  induction Hl as [|x loss_row Hx _ IH]; intros mask_row Hm r Hr.
  - injection Hr as <-. lra.
  - destruct Hm as [|y mask_row (m & -> & Hm0) Hm].
    + injection Hr as <-. lra.
    + simpl in Hr. apply tsum_cons_Some in Hr as (a & s & Ha & Hs & ->).
      destruct x as [xr|]; [|discriminate]. injection Ha as <-.
      pose proof (Hx xr eq_refl). pose proof (IH mask_row Hm s Hs).
      pose proof (Rmult_le_pos xr m). lra.
Qed.

Lemma mask_of_nonneg (pad : nat) (row : list nat) : Forall finite_nonneg (mask_of pad row).
Proof.
  apply Forall_forall. intros x Hx. apply list_elem_of_In, in_map_iff in Hx.
  destruct Hx as (t & <- & _).
  destruct (Nat.eqb t pad); eexists; (split; [reflexivity|lra]).
Qed.

Lemma Forall_zip_with_masked (P Q : float -> Prop) (losses : list tensor)
    (rows : list (list nat)) (pad : nat) :
  (forall loss_row mask_row, Forall P loss_row -> Forall finite_nonneg mask_row ->
     Q (tsum (zip_with fmul loss_row mask_row))) ->
  Forall (Forall P) losses ->
  Forall Q
    (zip_with (fun loss_row mask_row => tsum (zip_with fmul loss_row mask_row))
              losses (map (mask_of pad) rows)).
Proof.
  intros HPQ Hl. revert rows. induction Hl as [|l losses Hl0 _ IH]; intros rows.
  - constructor.
  - destruct rows as [|row rows]; [constructor|].
    simpl. constructor; [|apply IH].
    apply HPQ; [exact Hl0|apply mask_of_nonneg].
Qed.

Lemma pad_sequence_Ok (rows : list (list nat)) (pad : nat) (batch : token_batch) :
  pad_sequence rows pad = Ok batch ->
  rows <> []
  /\ batch_rows batch
     = map (fun row => row ++ replicate (max_len rows - length row) pad) rows
  /\ batch_dtype batch = dtype_of (hd [] rows).
Proof.
  destruct rows as [|r rows]; [discriminate|].
  intros E. injection E as <-. split; [discriminate|]. split; reflexivity.
Qed.

Lemma loss_fn_Ok (pad : nat) (lg : logits3) (targets : token_batch)
    (losses : list tensor) :
  loss_fn pad lg targets = Ok losses ->
  cross_entropy_rows pad lg 0 (batch_rows targets) = Ok losses
  /\ n_batch lg = length (batch_rows targets)
  /\ Forall (fun row => length row = n_pos lg) (batch_rows targets)
  /\ batch_dtype targets = Integral.
Proof.
  unfold loss_fn.
  destruct (Nat.eqb (n_batch lg) (length (batch_rows targets))) eqn:Hb; [|discriminate].
  simpl. destruct (batch_dtype targets); [|discriminate].
  destruct (forallb _ (batch_rows targets)) eqn:Hp; [|discriminate].
  intros E. split; [exact E|]. split; [apply Nat.eqb_eq, Hb|]. split; [|reflexivity].
  apply Forall_forall. intros row Hrow.
  rewrite forallb_forall in Hp. apply Nat.eqb_eq, Hp, list_elem_of_In, Hrow.
Qed.

(** The shape of a successful evaluation. *)
Lemma calculate_nll_Ok (model : callable) (tok : Tokenizer) (sequences : list string)
    (nll : tensor) :
  calculate_nll model tok sequences = Ok nll ->
  exists batch lg losses,
    pad_sequence (map (tokenizeMSA tok) sequences) (pad_id tok) = Ok batch
    /\ model (full_like batch (mask_id tok)) (map String.length sequences) = Ok lg
    /\ loss_fn (pad_id tok) lg batch = Ok losses
    /\ nll = zip_with (fun loss_row mask_row => tsum (zip_with fmul loss_row mask_row))
                      losses (map (mask_of (pad_id tok)) (batch_rows batch)).
Proof.
  unfold calculate_nll. intros E.
  apply res_bind_Ok in E as (batch & Hbatch & E).
  apply res_bind_Ok in E as (lg & Hlg & E).
  apply res_bind_Ok in E as (losses & Hlosses & E).
  injection E as <-. exists batch, lg, losses. repeat split; assumption.
Qed.

Lemma calculate_nll_facts (model : callable) (tok : Tokenizer) (sequences : list string)
    (nll : tensor) :
  calculate_nll model tok sequences = Ok nll ->
  sequences <> [] /\ length nll = length sequences /\ Forall never_negative nll.
Proof.
  intros E. apply calculate_nll_Ok in E as (batch & lg & losses & Hb & _ & Hl & ->).
  apply pad_sequence_Ok in Hb as (Hne & Hrows & _).
  apply loss_fn_Ok in Hl as (Hce & _ & _ & _).
  apply (cross_entropy_rows_all never_negative) in Hce as [Hlen Hall];
    [|intros b j t x; apply cross_entropy_at_never_negative].
  split; [|split].
  - intros ->. apply Hne. reflexivity.
  - unfold tensor in *. rewrite length_zip_with, Hlen, !length_map, Hrows, !length_map. lia.
  - apply (Forall_zip_with_masked never_negative); [|exact Hall].
    apply masked_sum_never_negative.
Qed.

Lemma calculate_nll_finite (model : callable) (tok : Tokenizer) (sequences : list string)
    (nll : tensor) (batch : token_batch) (lg : logits3) :
  calculate_nll model tok sequences = Ok nll ->
  pad_sequence (map (tokenizeMSA tok) sequences) (pad_id tok) = Ok batch ->
  model (full_like batch (mask_id tok)) (map String.length sequences) = Ok lg ->
  finite_logits lg ->
  Forall finite_nonneg nll.
Proof.
  intros E Hbatch Hlg Hfin.
  apply calculate_nll_Ok in E as (batch' & lg' & losses & Hb & Hlg' & Hl & ->).
  rewrite Hbatch in Hb. injection Hb as <-. rewrite Hlg in Hlg'. injection Hlg' as <-.
  apply loss_fn_Ok in Hl as (Hce & _ & _ & _).
  apply (cross_entropy_rows_all finite_nonneg) in Hce as [Hlen Hall];
    [|intros b j t x; apply cross_entropy_at_finite, Hfin].
  apply (Forall_zip_with_masked finite_nonneg); [|exact Hall].
  apply masked_sum_nonneg.
Qed.

Lemma cross_entropy_row_total (pad : nat) (lg : logits3) (b : nat)
    (targets : list nat) (j : nat) :
  Forall (fun t => t = pad \/ (t < n_class lg)%nat) targets ->
  exists row, cross_entropy_row pad lg b j targets = Ok row.
Proof.
  intros Hall. revert j. induction Hall as [|t targets Ht _ IH]; intros j.
  - exists []. reflexivity.
  - destruct (IH (S j)) as (row & Hrow). simpl. rewrite Hrow.
    unfold cross_entropy_at. destruct (Nat.eqb t pad) eqn:Hp.
    + eexists. reflexivity.
    + destruct Ht as [->|Ht]; [rewrite Nat.eqb_refl in Hp; discriminate|].
      apply Nat.ltb_lt in Ht. rewrite Ht. eexists. reflexivity.
Qed.

Lemma cross_entropy_rows_total (pad : nat) (lg : logits3)
    (targets : list (list nat)) (b : nat) :
  Forall (Forall (fun t => t = pad \/ (t < n_class lg)%nat)) targets ->
  exists rows, cross_entropy_rows pad lg b targets = Ok rows.
Proof.
  intros Hall. revert b. induction Hall as [|t targets Ht _ IH]; intros b.
  - exists []. reflexivity.
  - destruct (IH (S b)) as (rows & Hrows).
    destruct (cross_entropy_row_total pad lg b t 0 Ht) as (row & Hrow).
    simpl. rewrite Hrow, Hrows. eexists. reflexivity.
Qed.

Lemma length_le_max_len (rows : list (list nat)) (row : list nat) :
  In row rows -> (length row <= max_len rows)%nat.
Proof.
  induction rows as [|r rows IH]; intros Hin; [destruct Hin|].
  unfold max_len in *. simpl. destruct Hin as [->|Hin]; [lia|].
  specialize (IH Hin). lia.
Qed.

Lemma tneg_never_positive (nll : tensor) :
  Forall never_negative nll -> Forall never_positive (tneg nll).
Proof.
  intros Hall. unfold tneg. apply Forall_forall. intros x Hx.
  apply list_elem_of_In, in_map_iff in Hx. destruct Hx as (y & <- & Hy).
  rewrite Forall_forall in Hall. intros r Hr.
  destruct y as [a|]; [|discriminate]. injection Hr as <-.
  pose proof (Hall (Some a) (proj2 (list_elem_of_In _ _) Hy) a eq_refl). lra.
Qed.

Lemma tneg_finite_nonpos (nll : tensor) :
  Forall finite_nonneg nll -> Forall finite_nonpos (tneg nll).
Proof.
  intros Hall. unfold tneg. apply Forall_forall. intros x Hx.
  apply list_elem_of_In, in_map_iff in Hx. destruct Hx as (y & <- & Hy).
  rewrite Forall_forall in Hall.
  destruct (Hall y) as (r & -> & Hr); [apply list_elem_of_In, Hy|].
  exists (- r). split; [reflexivity|lra].
Qed.

(** C10, as stated: every NLL that [calculate_nll] returns would be at
    least 0 and every log-likelihood at most 0.  A model can return
    logits that are not numbers (a network whose parameters have become NaN
    does): the NLLs are then NaN, which is not at least 0. *)
Lemma calculate_nll_of_nan_logits :
  calculate_nll ex_nan_model ex_tokenizer ["AC"; "C"] = Ok [None; None]
  /\ ~ Forall finite_nonneg [None; None]
  /\ ~ Forall finite_nonpos (tneg [None; None]).
Proof.
  split; [reflexivity|].
  split; intros Hall; apply Forall_inv in Hall; destruct Hall as (r & Hr & _);
    discriminate.
Qed.

(** C10, amended.  Whenever [calculate_nll] returns, it returns one NLL per
    sequence, and none of them is a negative number: each is a finite
    number that is at least 0, or it is not finite; so no log-likelihood
    (the negated NLL) is a positive number.  When the logits the model
    returned are all finite, every NLL is a finite number that is at least
    0 and every log-likelihood a finite number that is at most 0 (in the
    exact arithmetic of this development: rounding and overflow are not
    modelled).
    [calculate_nll] does return when the first sequence has a token (the
    batch of tokens is then integral), the model answers with logits of the
    batch's shape and every token is one of the classes; when the first
    sequence has no token it raises. *)
Theorem calculate_nll_nonneg (model : callable) (tok : Tokenizer)
    (sequences : list string) :
  (forall nll,
     calculate_nll model tok sequences = Ok nll ->
     length nll = length sequences
     /\ Forall never_negative nll
     /\ Forall never_positive (tneg nll))
  /\ (forall nll batch lg,
        calculate_nll model tok sequences = Ok nll ->
        pad_sequence (map (tokenizeMSA tok) sequences) (pad_id tok) = Ok batch ->
        model (full_like batch (mask_id tok)) (map String.length sequences) = Ok lg ->
        finite_logits lg ->
        Forall finite_nonneg nll /\ Forall finite_nonpos (tneg nll))
  /\ (forall batch lg,
        pad_sequence (map (tokenizeMSA tok) sequences) (pad_id tok) = Ok batch ->
        batch_dtype batch = Integral ->
        model (full_like batch (mask_id tok)) (map String.length sequences) = Ok lg ->
        n_batch lg = length sequences ->
        n_pos lg = max_len (map (tokenizeMSA tok) sequences) ->
        Forall (fun s => Forall (fun t => (t < n_class lg)%nat) (tokenizeMSA tok s))
               sequences ->
        exists nll, calculate_nll model tok sequences = Ok nll)
  /\ (forall batch,
        pad_sequence (map (tokenizeMSA tok) sequences) (pad_id tok) = Ok batch ->
        batch_dtype batch = Floating ->
        exists e, calculate_nll model tok sequences = Raise e).
Proof.
  split; [|split; [|split]].
  - intros nll E. apply calculate_nll_facts in E as (_ & Hlen & Hall).
    split; [exact Hlen|]. split; [exact Hall|]. apply tneg_never_positive, Hall.
  - intros nll batch lg E Hbatch Hlg Hfin.
    pose proof (calculate_nll_finite model tok sequences nll batch lg E Hbatch Hlg Hfin).
    split; [assumption|]. apply tneg_finite_nonpos. assumption.
  - intros batch lg Hbatch Hdtype Hlg Hnb Hnp Htok.
    unfold calculate_nll. rewrite Hbatch. simpl. rewrite Hlg. simpl.
    apply pad_sequence_Ok in Hbatch as (Hne & Hrows & _).
    assert (Hshape : loss_fn (pad_id tok) lg batch
                     = cross_entropy_rows (pad_id tok) lg 0 (batch_rows batch)).
    { unfold loss_fn. rewrite Hrows, !length_map, Hnb, Nat.eqb_refl, Hdtype. simpl.
      replace (forallb _ _) with true; [reflexivity|].
      symmetry. apply forallb_forall. intros row Hrow.
      apply in_map_iff in Hrow as (r & <- & Hr).
      apply Nat.eqb_eq. rewrite length_app, length_replicate, Hnp.
      pose proof (length_le_max_len _ _ Hr). lia. }
    rewrite Hshape.
    destruct (cross_entropy_rows_total (pad_id tok) lg (batch_rows batch) 0)
      as (rows & Hce).
    + rewrite Hrows. apply Forall_forall. intros row Hrow.
      apply list_elem_of_In, in_map_iff in Hrow as (r & <- & Hr).
      apply in_map_iff in Hr as (s & <- & Hs).
      rewrite Forall_forall in Htok. specialize (Htok s (proj2 (list_elem_of_In _ _) Hs)).
      apply Forall_app. split.
      * eapply Forall_impl; [exact Htok|]. intros t Ht. right. exact Ht.
      * apply Forall_forall. intros t Ht. apply elem_of_replicate in Ht as [-> _].
        left. reflexivity.
    + rewrite Hce. simpl. eexists. reflexivity.
  - intros batch Hbatch Hdtype. unfold calculate_nll. rewrite Hbatch. simpl.
    destruct (model (full_like batch (mask_id tok)) (map String.length sequences))
      as [lg|e]; simpl; [|eexists; reflexivity].
    unfold loss_fn. rewrite Hdtype.
    destruct (negb _); simpl; eexists; reflexivity.
Qed.

Lemma calculate_nll_nonneg_witness :
  exists nll, calculate_nll ex_uniform_model ex_tokenizer ["AC"; "C"] = Ok nll
              /\ length nll = 2%nat /\ Forall finite_nonneg nll.
Proof.
  destruct (calculate_nll_nonneg ex_uniform_model ex_tokenizer ["AC"; "C"])
    as (Hnonneg & Hfinite & Htotal & _).
  destruct (Htotal {| batch_dtype := Integral; batch_rows := [[0; 1]; [1; 9]]%nat |}
              {| n_batch := 2; n_pos := 2; n_class := 2;
                 logit := fun b j k => Some (INR k) |})
    as (nll & Hnll).
  - reflexivity.
  - reflexivity.
  - reflexivity.
  - reflexivity.
  - reflexivity.
  - repeat constructor.
  - exists nll. destruct (Hnonneg nll Hnll) as (Hlen & _ & _).
    split; [exact Hnll|]. split; [exact Hlen|].
    eapply (Hfinite nll); [exact Hnll|reflexivity|reflexivity|].
    intros b j k. eexists. reflexivity.
Defined.





Lemma cross_entropy_rows_lookup (pad : nat) (lg : logits3)
    (targets : list (list nat)) (b : nat) (rows : list tensor) (i : nat)
    (row : list nat) :
  cross_entropy_rows pad lg b targets = Ok rows ->
  targets !! i = Some row ->
  exists r, rows !! i = Some r /\ cross_entropy_row pad lg (b + i) 0 row = Ok r.
Proof.
  revert b rows i. induction targets as [|t targets IH]; intros b rows i E Hi.
  - rewrite lookup_nil in Hi. discriminate.
  - simpl in E. apply res_bind_Ok in E as (x & Hx & E).
    apply res_bind_Ok in E as (xs & Hxs & E). injection E as <-.
    destruct i as [|i].
    + simpl in Hi. injection Hi as ->. exists x. rewrite Nat.add_0_r. auto.
    + simpl in Hi. destruct (IH (S b) xs i Hxs Hi) as (r & Hr & Hrow).
      exists r. split; [exact Hr|]. rewrite <- Hrow. f_equal. lia.
Qed.

Lemma cross_entropy_row_app (pad : nat) (lg : logits3) (b : nat)
    (l1 l2 : list nat) (j : nat) (row : tensor) :
  cross_entropy_row pad lg b j (l1 ++ l2) = Ok row ->
  exists r1 r2,
    cross_entropy_row pad lg b j l1 = Ok r1
    /\ cross_entropy_row pad lg b (j + length l1) l2 = Ok r2
    /\ row = r1 ++ r2.
Proof.
  revert j row. induction l1 as [|t l1 IH]; intros j row E.
  - exists [], row. rewrite Nat.add_0_r. auto.
  - simpl in E. apply res_bind_Ok in E as (x & Hx & E).
    apply res_bind_Ok in E as (xs & Hxs & E). injection E as <-.
    destruct (IH (S j) xs Hxs) as (r1 & r2 & H1 & H2 & ->).
    exists (x :: r1), r2. simpl. rewrite Hx, H1. simpl.
    split; [reflexivity|]. split; [|reflexivity].
    rewrite <- H2. f_equal. lia.
Qed.

Lemma cross_entropy_row_padding (pad : nat) (lg : logits3) (b j n : nat) :
  cross_entropy_row pad lg b j (replicate n pad) = Ok (replicate n (Some 0)).
Proof.
  revert j. induction n as [|n IH]; intros j; [reflexivity|].
  simpl. unfold cross_entropy_at. rewrite Nat.eqb_refl. simpl.
  rewrite IH. reflexivity.
Qed.

Lemma cross_entropy_row_length (pad : nat) (lg : logits3) (b : nat)
    (targets : list nat) (j : nat) (row : tensor) :
  cross_entropy_row pad lg b j targets = Ok row -> length row = length targets.
Proof.
  intros E. apply (cross_entropy_row_all (fun _ => True) pad lg) in E as [Hlen _];
    [exact Hlen|auto].
Qed.

(** The cross entropy of a row only looks at the logits of the row's own
    positions. *)
Lemma cross_entropy_row_ext (pad : nat) (lg lg' : logits3) (b b' : nat)
    (targets : list nat) (j : nat) :
  n_class lg' = n_class lg ->
  (forall j' k, (j <= j' < j + length targets)%nat ->
                logit lg' b' j' k = logit lg b j' k) ->
  cross_entropy_row pad lg' b' j targets = cross_entropy_row pad lg b j targets.
Proof.
  intros Hc. revert j. induction targets as [|t targets IH]; intros j Hl; [reflexivity|].
  simpl. rewrite IH by (intros j' k Hj; apply Hl; simpl; lia).
  replace (cross_entropy_at pad lg' b' j t) with (cross_entropy_at pad lg b j t);
    [reflexivity|].
  unfold cross_entropy_at. rewrite Hc.
  rewrite (map_ext (logit lg' b' j) (logit lg b j))
    by (intros k; apply Hl; simpl; lia).
  rewrite (Hl j t) by (simpl; lia). reflexivity.
Qed.

Lemma map_const_replicate {A B} (l : list A) (v : B) :
  map (fun _ => v) l = replicate (length l) v.
Proof. induction l as [|x l IH]; [reflexivity|]. simpl. rewrite IH. reflexivity. Qed.

Lemma tsum_masked_padding (n : nat) :
  tsum (zip_with fmul (replicate n (Some 0)) (replicate n (Some 0))) = Some 0
  \/ exists z, tsum (zip_with fmul (replicate n (Some 0)) (replicate n (Some 0))) = Some z
               /\ z = 0.
Proof.
  right. induction n as [|n (z & Hz & ->)].
  - exists 0. split; reflexivity.
  - exists (0 * 0 + 0). split; [|lra].
    change (tsum (zip_with fmul (replicate (S n) (Some 0)) (replicate (S n) (Some 0))))
      with (fadd (Some (0 * 0)) (tsum (zip_with fmul (replicate n (Some 0))
                                                    (replicate n (Some 0))))).
    rewrite Hz. reflexivity.
Qed.

(** The masked sum of a padded row is the masked sum of the row itself. *)
Lemma masked_sum_padded (pad : nat) (toks : list nat) (r1 : tensor) (n : nat) :
  length r1 = length toks ->
  tsum (zip_with fmul (r1 ++ replicate n (Some 0))
                      (mask_of pad (toks ++ replicate n pad)))
  = tsum (zip_with fmul r1 (mask_of pad toks)).
Proof.
  intros Hlen. unfold mask_of at 1. rewrite map_app, map_replicate, Nat.eqb_refl.
  fold (mask_of pad toks).
  rewrite zip_with_app by (unfold mask_of; rewrite length_map; exact Hlen).
  rewrite tsum_app.
  destruct (tsum_masked_padding n) as [->|(z & -> & ->)]; apply fadd_zero_r.
Qed.

(** C7, as stated: the NLL of a sequence would be the same alone and inside
    any batch, for every model.  The model is given a fully masked input as
    wide as the longest sequence of the batch, so a model that looks at the
    width of its input answers differently: here the sequence [C] has NLL
    [ln 2] alone and [ln 4] next to [CC]. *)
Lemma nll_depends_on_batch :
  exists alone batched other,
    calculate_nll ex_border_model ex_tokenizer ["C"] = Ok [Some alone]
    /\ calculate_nll ex_border_model ex_tokenizer ["C"; "CC"]
       = Ok [Some batched; Some other]
    /\ alone = ln 2 /\ batched = ln 4 /\ alone <> batched.
Proof.
  assert (E3 : exp (ln 3) = 3) by (apply exp_ln; lra).
  assert (Hlt : ln 2 < ln 4) by (apply ln_increasing; lra).
  eexists _, _, _.
  split; [unfold calculate_nll; simpl; unfold cross_entropy_at; simpl; reflexivity|].
  split; [unfold calculate_nll; simpl; unfold cross_entropy_at; simpl; reflexivity|].
  rewrite E3, exp_0.
  replace (1 + (1 + 0)) with 2 by lra. replace (3 + (1 + 0)) with 4 by lra.
  split; [lra|]. split; lra.
Qed.

(** C7, amended.  For a model whose logits on a row depend neither on the
    other rows nor on the padded width ([padding_invariant]), and for a
    sequence that has at least one token, the NLL that [calculate_nll]
    returns for the sequence inside a batch is the NLL it returns for that
    sequence evaluated alone.  (A sequence without a token cannot be
    evaluated alone: the batch of tokens is then floating-point and the
    loss rejects it.) *)
Theorem nll_independent_of_batch (model : callable) (tok : Tokenizer)
    (sequences : list string) (nlls : tensor) (i : nat) (s : string)
    (Hmodel : padding_invariant model (mask_id tok))
    (Hbatch : calculate_nll model tok sequences = Ok nlls)
    (Hi : sequences !! i = Some s)
    (Htokens : tokenizeMSA tok s <> []) :
  exists x, nlls !! i = Some x /\ calculate_nll model tok [s] = Ok [x].
Proof.
  apply calculate_nll_Ok in Hbatch as (batch & lg & losses & Hb & Hlg & Hl & ->).
  apply pad_sequence_Ok in Hb as (_ & Hrows & _).
  apply loss_fn_Ok in Hl as (Hce & _ & _ & Hdtype).
  rewrite Hrows in *.
  set (rows := map (tokenizeMSA tok) sequences) in *.
  set (toks := tokenizeMSA tok s) in *.
  set (extra := (max_len rows - length toks)%nat).
  assert (Hrow : map (fun row => row ++ replicate (max_len rows - length row) (pad_id tok))
                     rows !! i = Some (toks ++ replicate extra (pad_id tok))).
  { subst rows. rewrite !list_lookup_fmap, Hi. reflexivity. }
  destruct (cross_entropy_rows_lookup _ _ _ _ _ _ _ Hce Hrow) as (r & Hr & Hrowce).
  simpl in Hrowce.
  apply cross_entropy_row_app in Hrowce as (r1 & r2 & Hr1 & Hr2 & ->).
  rewrite cross_entropy_row_padding in Hr2. injection Hr2 as <-.
  pose proof (cross_entropy_row_length _ _ _ _ _ _ Hr1) as Hlen1.
  assert (Hpos : (1 <= length toks)%nat) by (destruct toks; [congruence|simpl; lia]).
  (* the model on the sequence alone *)
  destruct (Hmodel _ _ lg i (length toks + extra)%nat (String.length s) (length toks) Hlg)
    as (lg1 & Hlg1 & Hnb & Hnp & Hnc & Hlogit).
  { exact Hdtype. }
  { unfold full_like. simpl. rewrite Hrows. fold rows.
    rewrite list_lookup_fmap, Hrow. simpl.
    rewrite map_const_replicate, length_app, length_replicate. reflexivity. }
  { rewrite list_lookup_fmap, Hi. reflexivity. }
  { lia. }
  exists (tsum (zip_with fmul r1 (mask_of (pad_id tok) toks))). split.
  - unfold tensor in *. rewrite lookup_zip_with, Hr. simpl. rewrite list_lookup_fmap, Hrow. simpl.
    f_equal. apply masked_sum_padded; assumption.
  - assert (Hint : dtype_of toks = Integral) by (destruct toks; [congruence|reflexivity]).
    assert (Hmax : max_len [toks] = length toks) by (unfold max_len; simpl; lia).
    subst extra. subst toks.
    unfold calculate_nll. simpl map. unfold pad_sequence. cbv beta iota.
    rewrite Hint, Hmax. simpl. rewrite Nat.sub_diag. simpl.
    rewrite app_nil_r. unfold full_like. simpl. rewrite map_const_replicate, Hlg1. simpl.
    unfold loss_fn. simpl. rewrite Hnb, Hnp. simpl. rewrite Nat.eqb_refl. simpl.
    rewrite (cross_entropy_row_ext (pad_id tok) lg lg1 i 0 (tokenizeMSA tok s) 0 Hnc)
      by (intros j' k Hj; apply Hlogit; lia).
    rewrite Hr1. reflexivity.
Qed.

Lemma ex_uniform_model_padding_invariant (mask : nat) :
  padding_invariant ex_uniform_model mask.
Proof.
  intros input lengths lg b width len n Hlg _ _ _ Hn.
  injection Hlg as <-. eexists. split; [reflexivity|]. simpl.
  split; [reflexivity|]. split; [|split; [reflexivity|intros j k _; reflexivity]].
  unfold max_len. simpl. rewrite length_replicate. lia.
Qed.

Lemma nll_independent_of_batch_witness :
  exists nlls x,
    calculate_nll ex_uniform_model ex_tokenizer ["AC"; "C"] = Ok nlls
    /\ nlls !! 1%nat = Some x
    /\ calculate_nll ex_uniform_model ex_tokenizer ["C"] = Ok [x].
Proof.
  eexists.
  edestruct (nll_independent_of_batch ex_uniform_model ex_tokenizer ["AC"; "C"])
    with (i := 1%nat) (s := "C") as (x & Hx & Halone);
    [apply (ex_uniform_model_padding_invariant 8)|reflexivity|reflexivity
    |discriminate|].
  exists x. split; [reflexivity|]. split; [exact Hx|exact Halone].
Defined.

(** ** The training loop (claims C8, C9) *)

Section Preservation.
Context {S : Type} (P : S -> S -> Prop).
Hypothesis P_refl : forall s, P s s.
Hypothesis P_trans : forall a b c, P a b -> P b c -> P a c.

Lemma preserves_ret {A} (a : A) : preserves P (io_ret a).
Proof using P_refl. intros s r s' E. injection E as <- <-. apply P_refl. Qed.

Lemma preserves_lift {A} (x : Res A) : preserves P (io_lift x).
Proof using P_refl. intros s r s' E. injection E as <- <-. apply P_refl. Qed.

Lemma preserves_bind {A B} (m : IO S A) (k : A -> IO S B) :
  preserves P m -> (forall a, preserves P (k a)) -> preserves P (io_bind m k).
Proof using P_trans.
  intros Hm Hk s r s' E. unfold io_bind in E.
  destruct (m s) as [[a|e] s1] eqn:Em.
  - eapply P_trans; [eapply Hm, Em|eapply Hk, E].
  - injection E as <- <-. eapply Hm, Em.
Qed.

Lemma preserves_for {A B} (xs : list A) (body : A -> B -> IO S B) (acc : B) :
  (forall x b, preserves P (body x b)) -> preserves P (io_for xs body acc).
Proof using P_refl P_trans.
  intros Hbody. revert acc. induction xs as [|x xs IH]; intros acc.
  - apply preserves_ret.
  - simpl. apply preserves_bind; [apply Hbody|intros b; apply IH].
Qed.

End Preservation.

Lemma io_bind_inv {S A B} (m : IO S A) (k : A -> IO S B) (s s' : S) (r : Res B) :
  io_bind m k s = (r, s') ->
  (exists a s1, m s = (Ok a, s1) /\ k a s1 = (r, s'))
  \/ (exists e, m s = (Raise e, s') /\ r = Raise e).
Proof.
  unfold io_bind. destruct (m s) as [[a|e] s1]; intros E.
  - left. eauto.
  - right. injection E as <- <-. eauto.
Qed.

Lemma heap_frame_refl {W PT Slot} (locs : list nat) (st : State W PT Slot) :
  heap_frame locs st st.
Proof. intros l _. reflexivity. Qed.

Lemma heap_frame_trans {W PT Slot} (locs : list nat) (a b c : State W PT Slot) :
  heap_frame locs a b -> heap_frame locs b c -> heap_frame locs a c.
Proof. intros Hab Hbc l Hl. rewrite (Hbc l Hl). apply Hab, Hl. Qed.

Lemma same_log_refl {W PT Slot} (st : State W PT Slot) : same_log st st.
Proof. split; reflexivity. Qed.

Lemma same_log_trans {W PT Slot} (a b c : State W PT Slot) :
  same_log a b -> same_log b c -> same_log a c.
Proof. intros [H1 H2] [H3 H4]. split; congruence. Qed.

Section LoopFacts.
Context {W PT Slot : Type} `{OSApi W} `{Torch W PT Slot}.
Local Abbreviation St := (State W PT Slot).

(** *** What each operation leaves alone *)

Lemma foldr_alter_frame (f : Param PT -> Param PT) (ls : list nat)
    (h : gmap nat (Param PT)) (l : nat) :
  l ∉ ls -> foldr (alter f) h ls !! l = h !! l.
Proof.
  induction ls as [|x ls IH]; intros Hl; [reflexivity|].
  simpl. rewrite lookup_alter_ne by (intros ->; apply Hl; left).
  apply IH. intros Hin. apply Hl. right. exact Hin.
Qed.

Lemma backward_frame (cells : list (nat * PT)) (h : gmap nat (Param PT)) (l : nat) :
  l ∉ cells.*1 ->
  foldr (fun cell acc => alter (accumulate cell.2) cell.1 acc) h cells !! l = h !! l.
Proof.
  induction cells as [|c cells IH]; intros Hl; [reflexivity|].
  simpl. rewrite lookup_alter_ne by (intros E; apply Hl; rewrite <- E; left).
  apply IH. intros Hin. apply Hl. right. exact Hin.
Qed.

Lemma step_param_frame (opt : Optimizer) (st : St) (x l : nat) :
  l <> x -> heap (step_param opt st x) !! l = heap st !! l.
Proof.
  intros Hne. unfold step_param. destruct (heap st !! x) as [p|]; [|reflexivity].
  destruct (grad p); [|reflexivity]. simpl. apply lookup_insert_ne. congruence.
Qed.

Lemma optimizer_frame (opt : Optimizer) (ls : list nat) (st : St) (l : nat) :
  l ∉ ls -> heap (foldl (step_param opt) st ls) !! l = heap st !! l.
Proof.
  revert st. induction ls as [|x ls IH]; intros st Hl; [reflexivity|].
  simpl. rewrite IH by (intros Hin; apply Hl; right; exact Hin).
  apply step_param_frame. intros ->. apply Hl. left.
Qed.

Lemma step_param_log (opt : Optimizer) (st : St) (x : nat) :
  same_log st (step_param opt st x).
Proof.
  unfold step_param. destruct (heap st !! x) as [p|]; [|apply same_log_refl].
  destruct (grad p); [|apply same_log_refl]. split; reflexivity.
Qed.

Lemma optimizer_log (opt : Optimizer) (ls : list nat) (st : St) :
  same_log st (foldl (step_param opt) st ls).
Proof.
  revert st. induction ls as [|x ls IH]; intros st; [apply same_log_refl|].
  simpl. eapply same_log_trans; [apply step_param_log|apply IH].
Qed.

Section Operations.
Variable locs : list nat.

Lemma in_world_frame {A} (m : IO W A) :
  preserves (heap_frame locs) (in_world (PT:=PT) (Slot:=Slot) m)
  /\ preserves same_log (in_world (PT:=PT) (Slot:=Slot) m).
Proof.
  split; intros st r st' E; unfold in_world in E;
    destruct (m (world st)) as [r0 w']; injection E as <- <-.
  - (intros l _; reflexivity).
  - (split; reflexivity).
Qed.

Lemma set_mode_frame (m : Model) (b : bool) :
  preserves (heap_frame locs) (set_mode (W:=W) (PT:=PT) (Slot:=Slot) m b)
  /\ preserves same_log (set_mode (W:=W) (PT:=PT) (Slot:=Slot) m b).
Proof.
  split; intros st r st' E; injection E as <- <-.
  - (intros l _; reflexivity).
  - (split; reflexivity).
Qed.

Lemma nll_of_frame (m : Model) (tok : Tokenizer) (seqs : list string) :
  preserves (heap_frame locs) (nll_of (Slot:=Slot) m tok seqs)
  /\ preserves same_log (nll_of (Slot:=Slot) m tok seqs).
Proof.
  split; intros st r st' E; injection E as <- <-.
  - (intros l _; reflexivity).
  - (split; reflexivity).
Qed.

Lemma zero_grad_frame (opt : Optimizer) :
  param_group opt ⊆ locs ->
  preserves (heap_frame locs) (zero_grad (W:=W) (PT:=PT) (Slot:=Slot) opt)
  /\ preserves same_log (zero_grad (W:=W) (PT:=PT) (Slot:=Slot) opt).
Proof.
  intros Hsub. split; intros st r st' E; injection E as <- <-.
  - intros l Hl. simpl. apply foldr_alter_frame. intros Hin. apply Hl, Hsub, Hin.
  - split; reflexivity.
Qed.

Lemma loss_backward_frame (policy : Model) (grads : Res (list PT)) :
  parameters policy ⊆ locs ->
  preserves (heap_frame locs) (loss_backward (W:=W) (Slot:=Slot) policy grads)
  /\ preserves same_log (loss_backward (W:=W) (Slot:=Slot) policy grads).
Proof.
  intros Hsub. split; intros st r st' E; unfold loss_backward in E.
  - destruct (forallb _ _); [injection E as <- <-; intros l _; reflexivity|].
    destruct grads as [gs|e]; injection E as <- <-; [|intros l _; reflexivity].
    intros l Hl. simpl. apply backward_frame. intros Hin.
    apply Hl, Hsub. apply list_elem_of_fmap in Hin as ([x g] & -> & Hin).
    apply elem_of_zip_l in Hin. exact Hin.
  - destruct (forallb _ _); [injection E as <- <-; split; reflexivity|].
    destruct grads as [gs|e]; injection E as <- <-; split; reflexivity.
Qed.

Lemma optimizer_step_frame (opt : Optimizer) :
  param_group opt ⊆ locs ->
  preserves (heap_frame locs) (optimizer_step (W:=W) opt)
  /\ preserves same_log (optimizer_step (W:=W) opt).
Proof.
  intros Hsub. split; intros st r st' E; injection E as <- <-.
  - intros l Hl. apply optimizer_frame. intros Hin. apply Hl, Hsub, Hin.
  - apply optimizer_log.
Qed.
(** the same for the two operations whose argument is read from the state *)
Lemma in_world_reading_frame {A} (m : St -> IO W A) :
  preserves (heap_frame locs) (fun st => in_world (m st) st)
  /\ preserves same_log (fun st => in_world (m st) st).
Proof.
  split; intros st r st' E.
  - exact (proj1 (in_world_frame (m st)) st r st' E).
  - exact (proj2 (in_world_frame (m st)) st r st' E).
Qed.

Lemma loss_backward_reading_frame (policy : Model) (grads : St -> Res (list PT)) :
  parameters policy ⊆ locs ->
  preserves (heap_frame locs) (fun st => loss_backward policy (grads st) st)
  /\ preserves same_log (fun st => loss_backward policy (grads st) st).
Proof.
  intros Hsub. split; intros st r st' E.
  - exact (proj1 (loss_backward_frame policy (grads st) Hsub) st r st' E).
  - exact (proj2 (loss_backward_frame policy (grads st) Hsub) st r st' E).
Qed.
End Operations.
End LoopFacts.


Section StepFacts.
Context {W PT Slot : Type} `{OSApi W} `{Torch W PT Slot}.
Local Abbreviation St := (State W PT Slot).

Ltac frame_op locs :=
  lazymatch goal with
  | |- preserves _ (set_mode _ _) => apply (set_mode_frame locs)
  | |- preserves _ (in_world _) => apply (in_world_frame locs)
  | |- preserves _ (nll_of _ _ _) => apply (nll_of_frame locs)
  | |- preserves _ (io_lift _) =>
      apply preserves_lift; first [apply heap_frame_refl | apply same_log_refl]
  | |- preserves _ (zero_grad _) => apply (zero_grad_frame locs); assumption
  | |- preserves _ (optimizer_step _) => apply (optimizer_step_frame locs); assumption
  | |- _ =>
      first [ apply (in_world_reading_frame locs)
            | apply (loss_backward_reading_frame locs); assumption ]
  end.

(** A training step writes no parameter outside the policy's. *)
Lemma train_step_frame (cfg : Config) (ctx : Ctx) (epoch step : nat)
    (acc : float * list float) :
  param_group (optimizer ctx) ⊆ parameters (policy_model ctx) ->
  preserves (heap_frame (parameters (policy_model ctx)))
            (train_step (W:=W) (PT:=PT) (Slot:=Slot) cfg ctx epoch step acc).
Proof.
  intros Hsub.
  assert (Hself : parameters (policy_model ctx) ⊆ parameters (policy_model ctx))
    by (intros l Hl; exact Hl).
  unfold train_step. destruct acc as [total_loss all_rewards].
  repeat (apply (preserves_bind _ (heap_frame_trans _));
          [frame_op (parameters (policy_model ctx))|intros ?]).
  intros st r st' E. injection E as <- <-. intros l _. reflexivity.
Qed.




End StepFacts.

(** *** Checkpoint names *)

Lemma append_inj_r (p a b : string) : p +:+ a = p +:+ b -> a = b.
Proof.
  induction p as [|c p IH]; simpl; intros E; [exact E|].
  injection E as E. apply IH, E.
Qed.

Lemma str_of_nat_inj (a b : nat) : str_of_nat a = str_of_nat b -> a = b.
Proof.
  unfold str_of_nat. intros E.
  apply (f_equal NilEmpty.uint_of_string) in E. rewrite !NilEmpty.usu in E.
  injection E as E. apply (f_equal Nat.of_uint) in E.
  rewrite !DecimalNat.Unsigned.of_to in E. exact E.
Qed.



Section RunFacts.
Context {W PT Slot : Type} `{OSApi W} `{Torch W PT Slot}.
Local Abbreviation St := (State W PT Slot).

(** *** The epochs of a run *)


(** *** The set-up *)

Lemma store_all_mono (cells : list (nat * Param PT)) (h : gmap nat (Param PT)) (l : nat) :
  is_Some (h !! l) -> is_Some (store_all cells h !! l).
Proof.
  intros Hl. induction cells as [|c cells IH]; [exact Hl|].
  simpl. apply lookup_insert_is_Some.
  destruct (decide (c.1 = l)); [left; assumption|right; split; assumption].
Qed.

Lemma store_all_is_Some (locs : list nat) (ps : list (Param PT))
    (h : gmap nat (Param PT)) (l : nat) :
  length locs = length ps -> l ∈ locs -> is_Some (store_all (zip locs ps) h !! l).
Proof.
  revert ps. induction locs as [|x locs IH]; intros ps Hlen Hl.
  - apply elem_of_nil in Hl. destruct Hl.
  - destruct ps as [|p ps]; [discriminate|]. simpl.
    apply lookup_insert_is_Some. simpl.
    destruct (decide (x = l)); [left; assumption|right].
    split; [assumption|]. apply IH; [simpl in Hlen; lia|].
    apply elem_of_cons in Hl as [->|Hl]; [contradiction|exact Hl].
Qed.

Lemma load_model_Ok (st st' : St) (m : Model) (tok : Tokenizer) :
  load_model st = (Ok (m, tok), st') ->
  (forall l, l ∈ parameters m -> heap st !! l = None)
  /\ (forall l, l ∈ parameters m -> is_Some (heap st' !! l))
  /\ (forall l, is_Some (heap st !! l) -> is_Some (heap st' !! l))
  /\ same_log st st'.
Proof.
  unfold load_model, io_bind, in_world.
  destruct (OA_DM_38M (world st)) as [[loaded|e] w']; [|discriminate].
  intros E. injection E as <- <- <-. simpl. split; [|split; [|split]].
  - intros l Hl. apply fresh_list_is_fresh in Hl. apply not_elem_of_dom, Hl.
  - intros l Hl. apply store_all_is_Some; [|exact Hl].
    rewrite length_fresh_list, length_map. reflexivity.
  - intros l Hl. apply store_all_mono, Hl.
  - split; reflexivity.
Qed.

Lemma freeze_all_frozen (ls : list nat) (h : gmap nat (Param PT)) (l : nat) :
  l ∈ ls -> is_Some (h !! l) ->
  exists p, foldr (alter freeze_param) h ls !! l = Some p /\ requires_grad p = false.
Proof.
  induction ls as [|x ls IH]; intros Hl Hsome.
  - apply elem_of_nil in Hl. destruct Hl.
  - simpl. destruct (decide (x = l)) as [->|Hne].
    + rewrite lookup_alter_eq.
      assert (Hs : is_Some (foldr (alter freeze_param) h ls !! l)).
      { destruct (decide (l ∈ ls)) as [Hin|Hout].
        - destruct (IH Hin Hsome) as (p & -> & _). eauto.
        - rewrite foldr_alter_frame by exact Hout. exact Hsome. }
      destruct Hs as [p ->]. exists (freeze_param p). split; reflexivity.
    + rewrite lookup_alter_ne by exact Hne. apply IH; [|exact Hsome].
      apply elem_of_cons in Hl as [->|Hl]; [contradiction|exact Hl].
Qed.

Lemma setup_Ok (cfg : Config) (st0 st1 : St) (ctx : Ctx) :
  setup cfg st0 = (Ok ctx, st1) ->
  param_group (optimizer ctx) = parameters (policy_model ctx)
  /\ (forall l, l ∈ parameters (ref_model ctx) -> l ∉ parameters (policy_model ctx))
  /\ (forall l, l ∈ parameters (ref_model ctx) ->
        exists p, heap st1 !! l = Some p /\ requires_grad p = false)
  /\ same_log st0 st1.
Proof.
  unfold setup. intros E.
  apply io_bind_Ok in E as ([policy ptok] & sa & Hpolicy & E).
  apply io_bind_Ok in E as ([ref rtok] & sb & Href & E).
  apply io_bind_Ok in E as (u1 & sc & Hassert & E).
  apply io_lift_Ok in Hassert as [_ Hsc].
  apply io_bind_Ok in E as (u2 & sd & Hfreeze & E).
  apply io_bind_Ok in E as (u3 & se & Hmode & E).
  destruct u2, u3. subst sc.
  injection E as <- <-. injection Hmode as <-. injection Hfreeze as <-.
  apply load_model_Ok in Hpolicy as (_ & Hpol_in & _ & Hlog1).
  apply load_model_Ok in Href as (Hfresh & Href_in & _ & Hlog2).
  simpl in *. split; [reflexivity|]. split; [|split].
  - intros l Hl Hpol. specialize (Hfresh l Hl). specialize (Hpol_in l Hpol).
    rewrite Hfresh in Hpol_in. destruct Hpol_in as [? ?]. discriminate.
  - intros l Hl. apply freeze_all_frozen; [exact Hl|apply Href_in, Hl].
  - eapply same_log_trans; [exact Hlog1|]. destruct Hlog2 as [Hc Hs].
    split; simpl; assumption.
Qed.

Lemma omap_ext_in {A B} (f g : A -> option B) (ls : list A) :
  (forall l, l ∈ ls -> f l = g l) -> omap f ls = omap g ls.
Proof.
  intros Hfg. induction ls as [|x ls IH]; [reflexivity|].
  change (omap f (x :: ls)) with (from_option (fun y => y :: omap f ls) (omap f ls) (f x)).
  change (omap g (x :: ls)) with (from_option (fun y => y :: omap g ls) (omap g ls) (g x)).
  rewrite (Hfg x) by left. rewrite IH; [reflexivity|].
  intros l Hl. apply Hfg. right. exact Hl.
Qed.

Lemma values_of_frame (m : Model) (st st' : St) :
  (forall l, l ∈ parameters m -> heap st' !! l = heap st !! l) ->
  values_of m st' = values_of m st.
Proof.
  unfold values_of. intros Hsame. apply omap_ext_in.
  intros l Hl. rewrite Hsame by exact Hl. reflexivity.
Qed.

Lemma run_epoch_frame (cfg : Config) (ctx : Ctx) (epoch : nat) (u : unit) :
  param_group (optimizer ctx) ⊆ parameters (policy_model ctx) ->
  preserves (heap_frame (parameters (policy_model ctx)))
            (run_epoch (W:=W) (PT:=PT) (Slot:=Slot) cfg ctx epoch u).
Proof.
  intros Hsub. unfold run_epoch.
  apply (preserves_bind _ (heap_frame_trans _)).
  - apply preserves_for; [apply heap_frame_refl|apply heap_frame_trans|].
    intros x b. apply train_step_frame, Hsub.
  - intros acc.
    repeat (apply (preserves_bind _ (heap_frame_trans _));
            [first [ apply (in_world_frame (parameters (policy_model ctx)))
                   | apply preserves_lift, heap_frame_refl
                   | apply (in_world_reading_frame (parameters (policy_model ctx))) ]
            |intros ?]).
    intros st r st' E. injection E as <- <-. intros l _. reflexivity.
Qed.

Lemma training_loop_frame (cfg : Config) (ctx : Ctx) :
  param_group (optimizer ctx) ⊆ parameters (policy_model ctx) ->
  preserves (heap_frame (parameters (policy_model ctx)))
            (training_loop (W:=W) (PT:=PT) (Slot:=Slot) cfg ctx).
Proof.
  intros Hsub. unfold training_loop.
  apply preserves_for; [apply heap_frame_refl|apply heap_frame_trans|].
  intros x b. apply run_epoch_frame, Hsub.
Qed.
End RunFacts.

Section SetupFacts.
Context {W PT Slot : Type} `{OSApi W} `{Torch W PT Slot}.

End SetupFacts.

(** C8.  After the set-up, the optimizer's parameter group is exactly the
    policy's parameters and every parameter of the reference model is
    frozen.  Every training step, whether it returns or raises, leaves every
    parameter outside the policy's untouched, in particular every parameter
    of the reference model, whose values are therefore the same after the
    step as before; and so does the whole training loop. *)
Theorem reference_parameters_unchanged {W PT Slot : Type} `{OSApi W} `{Torch W PT Slot}
    (cfg : Config) (st0 st1 : State W PT Slot) (ctx : Ctx)
    (Hsetup : setup cfg st0 = (Ok ctx, st1)) :
  param_group (optimizer ctx) = parameters (policy_model ctx)
  /\ (forall l, l ∈ parameters (ref_model ctx) ->
        exists p, heap st1 !! l = Some p /\ requires_grad p = false)
  /\ (forall epoch step acc (st st' : State W PT Slot) r,
        train_step cfg ctx epoch step acc st = (r, st') ->
        (forall l, l ∉ parameters (policy_model ctx) -> heap st' !! l = heap st !! l)
        /\ (forall l, l ∈ parameters (ref_model ctx) -> heap st' !! l = heap st !! l)
        /\ values_of (ref_model ctx) st' = values_of (ref_model ctx) st)
  /\ (forall r (st2 : State W PT Slot),
        training_loop cfg ctx st1 = (r, st2) ->
        (forall l, l ∈ parameters (ref_model ctx) -> heap st2 !! l = heap st1 !! l)
        /\ values_of (ref_model ctx) st2 = values_of (ref_model ctx) st1).
Proof.
  apply setup_Ok in Hsetup as (Hgroup & Hdisjoint & Hfrozen & _).
  assert (Hsub : param_group (optimizer ctx) ⊆ parameters (policy_model ctx))
    by (rewrite Hgroup; intros l Hl; exact Hl).
  split; [exact Hgroup|]. split; [exact Hfrozen|]. split.
  - intros epoch step acc st st' r E.
    pose proof (train_step_frame cfg ctx epoch step acc Hsub st r st' E) as Hframe.
    assert (Href : forall l, l ∈ parameters (ref_model ctx) ->
                             heap st' !! l = heap st !! l)
      by (intros l Hl; apply Hframe, Hdisjoint, Hl).
    split; [exact Hframe|]. split; [exact Href|]. apply values_of_frame, Href.
  - intros r st2 E.
    pose proof (training_loop_frame cfg ctx Hsub st1 r st2 E) as Hframe.
    assert (Href : forall l, l ∈ parameters (ref_model ctx) ->
                             heap st2 !! l = heap st1 !! l)
      by (intros l Hl; apply Hframe, Hdisjoint, Hl).
    split; [exact Href|]. apply values_of_frame, Href.
Qed.

Lemma reference_parameters_unchanged_witness :
  exists ctx st1,
    setup ex_config ex_initial = (Ok ctx, st1)
    /\ param_group (optimizer ctx) = parameters (policy_model ctx)
    /\ values_of (ref_model ctx) (training_loop ex_config ctx st1).2
       = values_of (ref_model ctx) st1.
Proof.
  eexists _, _. split; [reflexivity|].
  edestruct (reference_parameters_unchanged ex_config ex_initial)
    as (Hgroup & _ & _ & Hloop); [reflexivity|].
  split; [exact Hgroup|].
  eapply Hloop. apply surjective_pairing.
Defined.

(** *** What the run leaves in the log of the world *)



Lemma checkpoint_dir_concerns_run {PT} (epoch : nat) :
  concerns_run (PT:=PT) (MadeDir (checkpoint_dir epoch)) = true.
Proof. reflexivity. Qed.

Section WorldLog.
Context {W PT : Type} `{OSApi W}.
Local Abbreviation WT := (W * list (event PT))%type.







End WorldLog.

Section RunLog.
Context {W PT Slot : Type} `{OSApi W} `{Torch W PT Slot}.
Local Abbreviation WT := (W * list (event PT))%type.
Local Abbreviation St := (State WT PT Slot).






Local Abbreviation tos := (traced_os PT).
Local Abbreviation ttorch := (@traced_torch W PT Slot _).











End RunLog.


(** Two epochs of one step each: after each step the checkpoint directory
    of the epoch is created and the policy's values saved in it, and the
    files are there at the end. *)
Example checkpoints_of_complete_run :
  (main_with ex_config ex_initial).1 = Ok tt
  /\ checkpoints (main_with ex_config ex_initial).2
     = [("evodiff_grpo_checkpoint_epoch_1", 1%nat);
        ("evodiff_grpo_checkpoint_epoch_2", 2%nat)]
  /\ assoc "evodiff_grpo_checkpoint_epoch_2/policy_model.pt"
           (world (main_with ex_config ex_initial).2) = Some (TextFile "weights")
  /\ run_log (traced_main ex_config ([] : ExFS)).2
     = [StepShown 0; MadeDir "evodiff_grpo_checkpoint_epoch_1";
        Saved [9; 19]%nat "evodiff_grpo_checkpoint_epoch_1/policy_model.pt";
        StepShown 1; MadeDir "evodiff_grpo_checkpoint_epoch_2";
        Saved [8; 18]%nat "evodiff_grpo_checkpoint_epoch_2/policy_model.pt"].
Proof. repeat split; vm_compute; reflexivity. Qed.

(** The sampler fails in the second epoch: the run raises and only the
    checkpoint of the first epoch was written. *)
Example checkpoints_of_aborted_run :
  (@main_with _ _ _ _ ex_torch_failing ex_config ex_initial).1 = Raise RuntimeError
  /\ checkpoints (@main_with _ _ _ _ ex_torch_failing ex_config ex_initial).2
     = [("evodiff_grpo_checkpoint_epoch_1", 1%nat)]
  /\ run_log (@traced_main _ _ _ _ ex_torch_failing ex_config ([] : ExFS)).2
     = [StepShown 0; MadeDir "evodiff_grpo_checkpoint_epoch_1";
        Saved [9; 19]%nat "evodiff_grpo_checkpoint_epoch_1/policy_model.pt"].
Proof. repeat split; vm_compute; reflexivity. Qed.

(** * Further properties of the code *)

(** ** Degenerate and shifted batches in the advantage normalisation *)

Lemma fdiv_nan_r (x : float) : fdiv x None = None.
Proof. destruct x; reflexivity. Qed.

(** X1.  A batch of one reward has no standard deviation: its advantage is NaN
    and so is the loss computed from it, whatever the reward, the log-ratio
    and the KL weight.  On an empty batch there is no advantage at all and
    the loss, a mean over nothing, is NaN as well. *)
Theorem batch_of_one_gives_nan (cfg : Config) (reward log_ratio : float) (beta : R) :
  advantages cfg [reward] = [None]
  /\ grpo_loss [log_ratio] (advantages cfg [reward]) beta = Ok None
  /\ advantages cfg [] = []
  /\ grpo_loss [] (advantages cfg []) beta = Ok None.
Proof.
  assert (H1 : advantages cfg [reward] = [None]).
  { unfold advantages. rewrite tstd_singleton. simpl. rewrite fdiv_nan_r. reflexivity. }
  split; [exact H1|]. split; [|split].
  - rewrite H1. unfold grpo_loss, policy_objective, tmul, broadcast2. simpl.
    unfold tmean. simpl. reflexivity.
  - reflexivity.
  - unfold grpo_loss, policy_objective, tmul, broadcast2. simpl.
    rewrite tmean_empty. reflexivity.
Qed.

Lemma rsum_shift (c : R) (xs : list R) :
  rsum (map (fun x => x + c) xs) = rsum xs + INR (length xs) * c.
Proof.
  induction xs as [|x xs IH]; [unfold rsum; simpl; lra|].
  rewrite map_cons, !rsum_cons, IH. simpl length. rewrite S_INR. lra.
Qed.

Lemma rmean_shift (c : R) (xs : list R) :
  (0 < length xs)%nat -> rmean (map (fun x => x + c) xs) = rmean xs + c.
Proof.
  intros Hn. unfold rmean. rewrite rsum_shift, length_map.
  pose proof (INR_length_pos xs Hn). field. lra.
Qed.

Lemma rstd_shift (c : R) (xs : list R) :
  (0 < length xs)%nat -> rstd (map (fun x => x + c) xs) = rstd xs.
Proof.
  intros Hn. unfold rstd. rewrite rmean_shift by exact Hn.
  rewrite length_map, map_map. do 3 f_equal.
  apply map_ext. intros x. lra.
Qed.

(** X2.  Adding the same constant to every reward of a batch of at least two
    does not change the advantages: only the differences between rewards
    matter. *)
Theorem advantages_shift_invariant (rewards : list R) (c : R)
    (Hsize : (2 <= length rewards)%nat) :
  advantages CONFIG (of_reals (map (fun r => r + c) rewards))
  = advantages CONFIG (of_reals rewards).
Proof.
  pose proof CONFIG_epsilon_std_pos as He.
  rewrite !advantages_of_reals; try assumption; [|rewrite length_map; exact Hsize].
  rewrite rmean_shift, rstd_shift by lia.
  rewrite map_map. f_equal. apply map_ext. intros x.
  unfold Rdiv. f_equal. lra.
Qed.

Lemma advantages_shift_invariant_witness :
  advantages CONFIG (of_reals (map (fun r => r + 10) ex_rewards))
  = advantages CONFIG (of_reals ex_rewards).
Proof.
  apply (advantages_shift_invariant ex_rewards 10). simpl. lia.
Defined.

Lemma rsum_ge_term (xs : list R) (x : R) :
  Forall (fun y => 0 <= y) xs -> x ∈ xs -> x <= rsum xs.
Proof.
  induction 1 as [|y xs Hy Hxs IH]; intros Hin.
  - apply elem_of_nil in Hin. destruct Hin.
  - rewrite rsum_cons. pose proof (rsum_nonneg xs Hxs).
    apply elem_of_cons in Hin as [->|Hin]; [lra|].
    specialize (IH Hin). lra.
Qed.

(** The square of the standard deviation, times [N - 1], is the sum of the
    squared deviations. *)
Lemma rstd_square (xs : list R) :
  (2 <= length xs)%nat ->
  INR (length xs - 1) * (rstd xs * rstd xs)
  = rsum (map (fun x => (x - rmean xs) * (x - rmean xs)) xs).
Proof.
  intros Hn. unfold rstd. rewrite sqrt_sqrt by apply sq_dev_nonneg.
  field. apply not_0_INR. lia.
Qed.

(** X3.  No advantage of a batch of [N >= 2] finite rewards is larger in absolute
    value than the square root of [N - 1]: its square is at most [N - 1]. *)
Theorem advantages_bounded (rewards : list R) (i : nat) (a : float)
    (Hsize : (2 <= length rewards)%nat)
    (Hi : advantages CONFIG (of_reals rewards) !! i = Some a) :
  exists r, a = Some r /\ r * r <= INR (length rewards - 1).
Proof.
  pose proof CONFIG_epsilon_std_pos as He.
  rewrite advantages_of_reals in Hi by assumption.
  unfold of_reals in Hi. rewrite map_map in Hi.
  unfold tensor, float in *. rewrite list_lookup_fmap in Hi.
  destruct (rewards !! i) as [x|] eqn:Hx; [|discriminate].
  simpl in Hi. injection Hi as <-.
  eexists. split; [reflexivity|].
  set (m := rmean rewards). set (s := rstd rewards).
  simpl in He.
  match goal with |- _ / ?dd * _ <= _ => set (d := dd) end.
  pose proof (rstd_nonneg rewards) as Hs. fold s in Hs.
  assert (Hd : 0 < d) by (unfold d; lra).
  assert (Hn1 : 0 < INR (length rewards - 1)) by (apply lt_0_INR; lia).
  assert (Hterm : (x - m) * (x - m) <= INR (length rewards - 1) * (s * s)).
  { unfold s. rewrite rstd_square by exact Hsize.
    apply rsum_ge_term; [apply squares_nonneg|].
    apply list_elem_of_lookup. exists i.
    rewrite list_lookup_fmap, Hx. reflexivity. }
  assert (Hss : s * s <= d * d).
  { apply Rmult_le_compat; unfold d; lra. }
  assert (Hbound : (x - m) * (x - m) <= INR (length rewards - 1) * (d * d)).
  { eapply Rle_trans; [exact Hterm|].
    apply Rmult_le_compat_l; [lra|exact Hss]. }
  assert (Hdd : 0 < d * d) by (apply Rmult_lt_0_compat; exact Hd).
  replace ((x - m) / d * ((x - m) / d)) with ((x - m) * (x - m) * / (d * d))
    by (field; lra).
  apply Rmult_le_reg_r with (d * d); [exact Hdd|].
  replace ((x - m) * (x - m) * / (d * d) * (d * d)) with ((x - m) * (x - m))
    by (field; lra).
  exact Hbound.
Qed.

Lemma advantages_bounded_witness :
  exists a r, advantages CONFIG (of_reals ex_rewards) !! 0%nat = Some a
              /\ a = Some r /\ r * r <= 3.
Proof.
  eexists.
  edestruct (advantages_bounded ex_rewards 0%nat) as (r & Hr & Hb);
    [simpl; lia|reflexivity|].
  exists r. split; [reflexivity|]. split; [exact Hr|].
  simpl in Hb. lra.
Defined.

(** ** The objective as a weighted mean, and its shape errors *)



(** X4.  Log-ratios and advantages of different sizes, neither of size one, make
    the element-wise product fail: [grpo_loss] raises a [RuntimeError]
    instead of returning a loss.  A size-one operand is broadcast.  *)
Theorem grpo_loss_shape_mismatch (log_ratios advs : tensor) (beta : R)
    (Hdiff : length log_ratios <> length advs)
    (Hlr : length log_ratios <> 1%nat) (Hadv : length advs <> 1%nat) :
  grpo_loss log_ratios advs beta = Raise RuntimeError
  /\ forall a, grpo_loss log_ratios [a] beta
               = Ok (fadd (fneg (tmean (map (fmul a) log_ratios)))
                          (kl_penalty log_ratios beta)).
Proof.
  split.
  - unfold grpo_loss, policy_objective, tmul, broadcast2.
    destruct (Nat.eqb (length advs) (length log_ratios)) eqn:E.
    + apply Nat.eqb_eq in E. congruence.
    + destruct advs as [|a [|a' advs]]; simpl in Hadv; try congruence;
        destruct log_ratios as [|l [|l' lrs]]; simpl in Hlr; try congruence;
        reflexivity.
  - intros a. unfold grpo_loss, policy_objective, tmul, broadcast2.
    destruct (Nat.eqb (length [a]) (length log_ratios)) eqn:E.
    + apply Nat.eqb_eq in E. simpl in E. congruence.
    + reflexivity.
Qed.

Lemma grpo_loss_shape_mismatch_witness :
  grpo_loss (of_reals ex_log_ratios) (of_reals [1; 2]) 0.1 = Raise RuntimeError.
Proof.
  apply (grpo_loss_shape_mismatch (of_reals ex_log_ratios) (of_reals [1; 2]) 0.1);
    simpl; lia.
Defined.

(** ** Uninformative batches *)





(** ** The range of a successful reward *)

Lemma rsum_bounds (lo hi : R) (ps : list R) :
  Forall (fun p => lo <= p <= hi) ps ->
  INR (length ps) * lo <= rsum ps <= INR (length ps) * hi.
Proof.
  induction 1 as [|p ps Hp _ IH]; [unfold rsum; simpl; lra|].
  rewrite rsum_cons. simpl length. rewrite S_INR. lra.
Qed.

Lemma rmean_bounds (lo hi : R) (ps : list R) :
  ps <> [] -> Forall (fun p => lo <= p <= hi) ps -> lo <= rmean ps <= hi.
Proof.
  intros Hne Hall. pose proof (rsum_bounds lo hi ps Hall) as [Hlo Hhi].
  assert (Hn : 0 < INR (length ps))
    by (apply INR_length_pos; destruct ps; [congruence|simpl; lia]).
  unfold rmean. split.
  - apply Rmult_le_reg_r with (INR (length ps)); [exact Hn|].
    replace (rsum ps / INR (length ps) * INR (length ps)) with (rsum ps)
      by (field; lra).
    lra.
  - apply Rmult_le_reg_r with (INR (length ps)); [exact Hn|].
    replace (rsum ps / INR (length ps) * INR (length ps)) with (rsum ps)
      by (field; lra).
    lra.
Qed.

(** X6.  When the confidence read from the ranking file is a number between 0
    and 1 and the per-residue confidences are a non-empty array of numbers
    between 0 and 100, the reward [iptm + 0.1 * avg_plddt] is a finite
    number between 0 and 11; the sentinel of a failed sequence lies below
    every such reward. *)
Theorem successful_reward_range (iptm : json) (confidence : R) (plddt : list R)
    (reward : float)
    (Hnum : json_number iptm = Some (Some confidence))
    (Hconf : 0 <= confidence <= 1)
    (Hne : plddt <> [])
    (Hplddt : Forall (fun p => 0 <= p <= 100) plddt)
    (Hreward : json_add_float iptm (fmul (Some 0.1) (tmean (of_reals plddt))) = Ok reward) :
  exists r sentinel,
    reward = Some r /\ 0 <= r <= 11
    /\ failure_reward = Some sentinel /\ sentinel < r.
Proof.
  unfold json_add_float in Hreward. rewrite Hnum in Hreward.
  rewrite tmean_of_reals in Hreward by (destruct plddt; [congruence|simpl; lia]).
  simpl in Hreward. injection Hreward as <-.
  pose proof (rmean_bounds 0 100 plddt Hne Hplddt) as [Hlo Hhi].
  eexists _, _. split; [reflexivity|]. split; [lra|].
  split; [reflexivity|lra].
Qed.

Lemma successful_reward_range_witness :
  exists r, json_add_float (JFloat (Some 0.8))
              (fmul (Some 0.1) (tmean (of_reals [90; 80]))) = Ok (Some r)
            /\ 0 <= r <= 11.
Proof.
  edestruct (successful_reward_range (JFloat (Some 0.8)) 0.8 [90; 80])
    as (r & s & Hr & Hrange & _);
    [reflexivity|lra|discriminate|repeat constructor; lra| |].
  - unfold json_add_float. simpl json_number. cbv beta iota. reflexivity.
  - exists r. split; [|exact Hrange]. rewrite <- Hr. reflexivity.
Defined.

(** ** The locations and the predictor of the scoring bridge *)

Lemma length_append (a b : string) :
  String.length (a +:+ b) = (String.length a + String.length b)%nat.
Proof. induction a as [|c a IH]; simpl; [reflexivity|]. rewrite IH. reflexivity. Qed.

Lemma append_inj_l (a b c : string) : a +:+ c = b +:+ c -> a = b.
Proof.
  revert b. induction a as [|x a IH]; intros [|y b] E.
  - reflexivity.
  - apply (f_equal String.length) in E. rewrite !length_append in E. simpl in E. lia.
  - apply (f_equal String.length) in E. rewrite !length_append in E. simpl in E. lia.
  - simpl in E. injection E as -> E. f_equal. apply IH, E.
Qed.

(** Joining a root with a relative name puts a prefix that depends on the
    root alone in front of the name. *)
Lemma os_path_join_relative (root : string) (c : ascii) (rest : string) :
  Ascii.eqb c "/" = false ->
  os_path_join root (String c rest)
  = (if String.eqb root "" || ends_with_slash root then root +:+ String c rest
     else root +:+ "/" +:+ String c rest).
Proof. intros Hc. unfold os_path_join. rewrite Hc. reflexivity. Qed.

Lemma os_path_join_inj (root : string) (c1 c2 : ascii) (r1 r2 : string) :
  Ascii.eqb c1 "/" = false -> Ascii.eqb c2 "/" = false ->
  os_path_join root (String c1 r1) = os_path_join root (String c2 r2) ->
  String c1 r1 = String c2 r2.
Proof.
  intros H1 H2. rewrite !os_path_join_relative by assumption.
  destruct (String.eqb root "" || ends_with_slash root); intros E.
  - apply append_inj_r in E. exact E.
  - apply append_inj_r, append_inj_r in E. exact E.
Qed.

(** X7.  Within one call of [get_reward] no two sequences share a location: the
    input files of different sequences differ, their job directories
    differ, and no input file is a job directory.  The try block of
    sequence [i] starts by writing [fasta_path root i]: when that write
    raises, so does the block, in the state the write left. *)
Theorem artifact_locations_distinct (root : string) (i j : nat) :
  (fasta_path root i = fasta_path root j -> i = j)
  /\ (job_dir root i = job_dir root j -> i = j)
  /\ fasta_path root i <> job_dir root j
  /\ (forall {W : Type} `{OSApi W} (target binder_seq : string)
        (predict : string -> string -> IO W unit) (w w' : W) (e : exn),
        write_text (fasta_path root i) (fasta_text target binder_seq) w = (Raise e, w') ->
        score_sequence target predict root i binder_seq w = (Raise e, w')).
Proof.
  split; [|split; [|split]].
  - unfold fasta_path. intros E.
    apply (os_path_join_inj root "s" "s" ("eq_" +:+ str_of_nat i +:+ ".fasta")
             ("eq_" +:+ str_of_nat j +:+ ".fasta") eq_refl eq_refl) in E.
    injection E as E. apply (append_inj_r "") in E.
    apply append_inj_l in E. apply str_of_nat_inj, E.
  - unfold job_dir. intros E.
    apply (os_path_join_inj root "j" "j" ("ob_" +:+ str_of_nat i)
             ("ob_" +:+ str_of_nat j) eq_refl eq_refl) in E.
    injection E as E. apply (append_inj_r "") in E.
    apply str_of_nat_inj, E.
  - unfold fasta_path, job_dir. intros E.
    apply (os_path_join_inj root "s" "j" ("eq_" +:+ str_of_nat i +:+ ".fasta")
             ("ob_" +:+ str_of_nat j) eq_refl eq_refl) in E.
    discriminate.
  - intros W HW target binder_seq predict w w' e Hwrite.
    unfold score_sequence, io_bind. fold (fasta_path root i).
    fold (fasta_text target binder_seq). rewrite Hwrite. reflexivity.
Qed.

Section PredictorFacts.
Context {W : Type} `{OSApi W}.

(** X8.  The predictor started by [main] is run through [os.system], whose exit
    status is dropped: whatever the status, the try block goes on to read
    the output files, and when they can be read the sequence gets the
    reward computed from them. *)
Theorem predictor_exit_status_is_ignored
    (target binder_seq root : string) (i : nat) (status : Z)
    (w w1 w2 w3 w4 w5 : W)
    (rank_data order model_name confs iptm : json) (result : pyobj)
    (plddt : list float) (confidence : float)
    (Hwrite : write_text (fasta_path root i) (fasta_text target binder_seq) w = (Ok tt, w1))
    (Hmkdir : os_makedirs (job_dir root i) w1 = (Ok tt, w2))
    (Hrun : os_system ("run_af2_multimer.sh " +:+ fasta_path root i +:+ " "
                       +:+ job_dir root i) w2 = (Ok status, w3))
    (Hrank : json_load (os_path_join (job_dir root i) "ranking_debug.json") w3
             = (Ok rank_data, w4))
    (Horder : json_getitem rank_data (JStr "order") = Ok order)
    (Hname : json_getitem order (JInt 0) = Ok model_name)
    (Hconfs : json_getitem rank_data (JStr "ranking_confidences") = Ok confs)
    (Hiptm : json_getitem confs model_name = Ok iptm)
    (Hresult : pickle_load (os_path_join (job_dir root i)
                              ("result_" +:+ json_format model_name +:+ ".pkl")) w4
               = (Ok result, w5))
    (Hplddt : obj_getitem result "plddt" = Ok (OArray plddt))
    (Hnum : json_number iptm = Some confidence) :
  af2_predict_fn (fasta_path root i) (job_dir root i) w2 = (Ok tt, w3)
  /\ score_sequence target af2_predict_fn root i binder_seq w
     = (Ok (fadd confidence (fmul (Some 0.1) (tmean plddt))), w5).
Proof.
  assert (Hpredict : af2_predict_fn (fasta_path root i) (job_dir root i) w2 = (Ok tt, w3)).
  { unfold af2_predict_fn, io_bind. rewrite Hrun. reflexivity. }
  split; [exact Hpredict|].
  unfold score_sequence, io_bind, io_lift, res_bind.
  fold (fasta_path root i). fold (job_dir root i). fold (fasta_text target binder_seq).
  rewrite Hwrite. cbv beta iota. rewrite Hmkdir. cbv beta iota.
  rewrite Hpredict. cbv beta iota. rewrite Hrank. cbv beta iota.
  rewrite Horder, Hname. cbv beta iota. rewrite Hconfs, Hiptm. cbv beta iota.
  rewrite Hresult. cbv beta iota. rewrite Hplddt. cbv beta iota.
  unfold obj_mean, json_add_float. rewrite Hnum. reflexivity.
Qed.
End PredictorFacts.

Lemma predictor_exit_status_is_ignored_witness :
  (os_system "run_af2_multimer.sh out/seq_0.fasta out/job_0"
     (("out/job_0", Dir) :: ("out/seq_0.fasta", TextFile (fasta_text "TARGET" "MKV"))
      :: ex_stale_outputs)).1 = Ok 127%Z
  /\ (score_sequence "TARGET" af2_predict_fn "out" 0 "MKV" ex_stale_outputs).1
     = Ok (fadd (Some 0.8) (fmul (Some 0.1) (tmean [Some 90; Some 80]))).
Proof.
  split; [reflexivity|].
  edestruct (predictor_exit_status_is_ignored (W:=ExFS) "TARGET" "MKV" "out" 0 127%Z
               ex_stale_outputs) as [_ Hscore];
    [reflexivity|reflexivity|reflexivity|reflexivity|reflexivity|reflexivity
    |reflexivity|reflexivity|reflexivity|reflexivity|reflexivity|].
  rewrite Hscore. reflexivity.
Defined.

(** ** The likelihood evaluator on its edge cases *)

Lemma Forall_eq_replicate_gen {A} (c : A) (xs : list A) :
  Forall (fun x => x = c) xs -> xs = replicate (length xs) c.
Proof.
  induction 1 as [|x xs Hx _ IH]; [reflexivity|].
  simpl. rewrite <- IH, Hx. reflexivity.
Qed.

Lemma mask_of_padding (pad n : nat) :
  mask_of pad (replicate n pad) = replicate n (Some 0).
Proof. unfold mask_of. rewrite map_replicate, Nat.eqb_refl. reflexivity. Qed.

(** X9.  A sequence all of whose tokens are the pad token, in particular the
    empty sequence, has NLL exactly 0 whatever the model predicts: the pad
    value is ignored by the loss even where it is a genuine token. *)
Theorem pad_tokens_are_ignored (model : callable) (tok : Tokenizer)
    (sequences : list string) (nlls : tensor) (i : nat) (s : string)
    (Hbatch : calculate_nll model tok sequences = Ok nlls)
    (Hi : sequences !! i = Some s)
    (Hpad : Forall (fun t => t = pad_id tok) (tokenizeMSA tok s)) :
  nlls !! i = Some (Some 0).
Proof.
  apply calculate_nll_Ok in Hbatch as (batch & lg & losses & Hb & Hlg & Hl & ->).
  apply pad_sequence_Ok in Hb as (_ & Hrows & _).
  apply loss_fn_Ok in Hl as (Hce & _ & _ & _).
  rewrite Hrows in *.
  set (rows := map (tokenizeMSA tok) sequences) in *.
  apply Forall_eq_replicate_gen in Hpad.
  set (n := length (tokenizeMSA tok s)) in *.
  set (extra := (max_len rows - n)%nat).
  assert (Hrow : map (fun row => row ++ replicate (max_len rows - length row) (pad_id tok))
                     rows !! i
                 = Some (replicate n (pad_id tok) ++ replicate extra (pad_id tok))).
  { subst rows. rewrite !list_lookup_fmap, Hi. simpl. fold n. rewrite <- Hpad.
    reflexivity. }
  destruct (cross_entropy_rows_lookup _ _ _ _ _ _ _ Hce Hrow) as (r & Hr & Hrowce).
  apply cross_entropy_row_app in Hrowce as (r1 & r2 & Hr1 & Hr2 & ->).
  rewrite cross_entropy_row_padding in Hr1, Hr2.
  injection Hr1 as <-. injection Hr2 as <-.
  unfold tensor in *. rewrite lookup_zip_with, Hr. simpl.
  rewrite list_lookup_fmap, Hrow. simpl. f_equal.
  rewrite masked_sum_padded by (rewrite !length_replicate; reflexivity).
  rewrite mask_of_padding.
  destruct (tsum_masked_padding n) as [E|(z & E & ->)]; exact E.
Qed.

Lemma pad_tokens_are_ignored_witness :
  exists nlls, calculate_nll ex_uniform_model ex_tokenizer ["AC"; ""] = Ok nlls
               /\ nlls !! 1%nat = Some (Some 0).
Proof.
  eexists. split; [reflexivity|].
  apply (pad_tokens_are_ignored ex_uniform_model ex_tokenizer ["AC"; ""] _ 1%nat "").
  - reflexivity.
  - reflexivity.
  - constructor.
Defined.

Lemma length_padded_row (rows : list (list nat)) (pad : nat) (row : list nat) :
  In row rows ->
  length (row ++ replicate (max_len rows - length row) pad) = max_len rows.
Proof.
  intros Hin. rewrite length_app, length_replicate.
  pose proof (length_le_max_len rows row Hin). lia.
Qed.



(** X11.  How [calculate_nll] fails.  An empty batch is rejected before the model
    is called: the outcome is an exception and it is the same for every
    model.  An exception of the model is passed on unchanged.  Logits whose
    batch size or number of positions is not that of the padded batch make
    the loss function raise: no NLL is returned. *)
Theorem calculate_nll_failures (tok : Tokenizer) (sequences : list string) :
  (exists e, forall model, calculate_nll model tok [] = Raise e)
  /\ (forall model batch e,
        pad_sequence (map (tokenizeMSA tok) sequences) (pad_id tok) = Ok batch ->
        model (full_like batch (mask_id tok)) (map String.length sequences) = Raise e ->
        calculate_nll model tok sequences = Raise e)
  /\ (forall model batch lg,
        pad_sequence (map (tokenizeMSA tok) sequences) (pad_id tok) = Ok batch ->
        model (full_like batch (mask_id tok)) (map String.length sequences) = Ok lg ->
        n_batch lg <> length sequences
        \/ n_pos lg <> max_len (map (tokenizeMSA tok) sequences) ->
        exists e, calculate_nll model tok sequences = Raise e).
Proof.
  split; [eexists; intros model; reflexivity|]. split.
  - intros model batch e Hbatch Hmodel. unfold calculate_nll.
    rewrite Hbatch. simpl. rewrite Hmodel. reflexivity.
  - intros model batch lg Hbatch Hmodel Hshape.
    unfold calculate_nll.
    rewrite Hbatch. simpl. rewrite Hmodel. simpl.
    apply pad_sequence_Ok in Hbatch as (Hne & Hrows & _).
    unfold loss_fn. rewrite Hrows, !length_map.
    destruct (Nat.eqb (n_batch lg) (length sequences)) eqn:Hb;
      [|eexists; reflexivity].
    apply Nat.eqb_eq in Hb. destruct Hshape as [Hbad|Hbad]; [contradiction|].
    simpl. destruct (batch_dtype batch); [|eexists; reflexivity].
    destruct (map (tokenizeMSA tok) sequences) as [|row rows] eqn:Htoks;
      [contradiction|].
    simpl forallb.
    replace (length (row ++ replicate (max_len (row :: rows) - length row) (pad_id tok)))
      with (max_len (row :: rows))
      by (symmetry; apply length_padded_row; left; reflexivity).
    destruct (Nat.eqb (max_len (row :: rows)) (n_pos lg)) eqn:Hp;
      [|eexists; reflexivity].
    apply Nat.eqb_eq in Hp. congruence.
Qed.

Lemma calculate_nll_failures_witness :
  calculate_nll (fun _ _ => Raise RuntimeError) ex_tokenizer ["AC"] = Raise RuntimeError.
Proof.
  destruct (calculate_nll_failures ex_tokenizer ["AC"]) as (_ & Hmodel & _).
  apply (Hmodel (fun _ _ => Raise RuntimeError)
           {| batch_dtype := Integral; batch_rows := [[0; 1]]%nat |} RuntimeError);
    reflexivity.
Defined.

(** ** The orchestrator on its edge cases *)

Section MainEdgeCases.
Context {W PT Slot : Type} `{OSApi W} `{Torch W PT Slot}.

(** X12.  When the two loaded tokenizers have different alphabets, [main] raises
    an [AssertionError] right after the second model is loaded: no step is
    run and no checkpoint is written. *)
Theorem tokenizer_mismatch_aborts (cfg : Config) (st s1 s2 : State W PT Slot)
    (policy ref : Model) (policy_tok ref_tok : Tokenizer)
    (Hpolicy : load_model st = (Ok (policy, policy_tok), s1))
    (Href : load_model s1 = (Ok (ref, ref_tok), s2))
    (Hdiff : alphabet policy_tok <> alphabet ref_tok) :
  main_with cfg st = (Raise AssertionError, s2)
  /\ checkpoints s2 = checkpoints st
  /\ steps_done s2 = steps_done st.
Proof.
  split.
  - unfold main_with, setup, io_bind. rewrite Hpolicy, Href. simpl.
    apply String.eqb_neq in Hdiff. rewrite Hdiff. reflexivity.
  - apply load_model_Ok in Hpolicy as (_ & _ & _ & Hc1 & Hs1).
    apply load_model_Ok in Href as (_ & _ & _ & Hc2 & Hs2).
    split; congruence.
Qed.

(** X13.  With no step per epoch, the first epoch raises a [ZeroDivisionError]
    while averaging the loss, before any checkpoint: the run ends in the
    state the set-up left. *)
Theorem no_steps_per_epoch_aborts (cfg : Config) (st st1 : State W PT Slot) (ctx : Ctx)
    (Hsteps : steps_per_epoch cfg = 0%nat)
    (Hepochs : rl_epochs cfg <> 0%nat)
    (Hsetup : setup cfg st = (Ok ctx, st1)) :
  main_with cfg st = (Raise ZeroDivisionError, st1).
Proof.
  unfold main_with, io_bind. rewrite Hsetup. unfold training_loop.
  destruct (rl_epochs cfg) as [|n]; [contradiction|].
  simpl. unfold io_bind at 1. unfold run_epoch. rewrite Hsteps. simpl.
  unfold io_bind, io_ret, io_lift. reflexivity.
Qed.
End MainEdgeCases.

Lemma tokenizer_mismatch_aborts_witness :
  (@main_with _ _ _ _ ex_torch_mismatch ex_config ex_initial).1 = Raise AssertionError
  /\ checkpoints (@main_with _ _ _ _ ex_torch_mismatch ex_config ex_initial).2 = [].
Proof.
  edestruct (@tokenizer_mismatch_aborts _ _ _ _ ex_torch_mismatch ex_config ex_initial)
    as (Hmain & Hc & _); [reflexivity|reflexivity| |].
  - simpl. discriminate.
  - rewrite Hmain. simpl. split; [reflexivity|exact Hc].
Defined.

Lemma no_steps_per_epoch_aborts_witness :
  (main_with ex_config_no_steps ex_initial).1 = Raise ZeroDivisionError.
Proof.
  erewrite (no_steps_per_epoch_aborts ex_config_no_steps ex_initial);
    [reflexivity|reflexivity|discriminate|reflexivity].
Defined.

(** ** Modes and gradient flags through the loop *)

Section ModeFacts.
Context {W PT Slot : Type} `{OSApi W} `{Torch W PT Slot}.
Local Abbreviation St := (State W PT Slot).

Lemma modes_frame_refl (i : nat) (st : St) : modes_frame i st st.
Proof. intros j _. reflexivity. Qed.

Lemma modes_frame_trans (i : nat) (a b c : St) :
  modes_frame i a b -> modes_frame i b c -> modes_frame i a c.
Proof. intros Hab Hbc j Hj. rewrite (Hbc j Hj). apply Hab, Hj. Qed.

Lemma flags_same_refl (st : St) : flags_same st st.
Proof. intros l. reflexivity. Qed.

Lemma flags_same_trans (a b c : St) :
  flags_same a b -> flags_same b c -> flags_same a c.
Proof. intros Hab Hbc l. rewrite (Hbc l). apply Hab. Qed.

Lemma step_param_training (opt : Optimizer) (st : St) (x : nat) :
  training (step_param opt st x) = training st.
Proof.
  unfold step_param. destruct (heap st !! x) as [p|]; [|reflexivity].
  destruct (grad p); reflexivity.
Qed.

Lemma optimizer_training (opt : Optimizer) (ls : list nat) (st : St) :
  training (foldl (step_param opt) st ls) = training st.
Proof.
  revert st. induction ls as [|x ls IH]; intros st; [reflexivity|].
  simpl. rewrite IH. apply step_param_training.
Qed.

(** an update of parameters that keeps a field keeps it in the store *)
Lemma foldr_alter_field {B} (proj : Param PT -> B) (f : Param PT -> Param PT)
    (ls : list nat) (h : gmap nat (Param PT)) (l : nat) :
  (forall p, proj (f p) = proj p) ->
  proj <$> foldr (alter f) h ls !! l = proj <$> h !! l.
Proof.
  intros Hf. induction ls as [|x ls IH]; [reflexivity|].
  simpl. destruct (decide (x = l)) as [->|Hne].
  - rewrite lookup_alter_eq, <- IH.
    destruct (foldr (alter f) h ls !! l) as [p|]; simpl; [rewrite Hf|]; reflexivity.
  - rewrite lookup_alter_ne by exact Hne. exact IH.
Qed.

Lemma accumulate_requires_grad (g : PT) (p : Param PT) :
  requires_grad (accumulate g p) = requires_grad p.
Proof. unfold accumulate. destruct (requires_grad p) eqn:E; [reflexivity|exact E]. Qed.

Lemma backward_flags (cells : list (nat * PT)) (h : gmap nat (Param PT)) (l : nat) :
  requires_grad <$> foldr (fun cell acc => alter (accumulate cell.2) cell.1 acc) h cells !! l
  = requires_grad <$> h !! l.
Proof.
  induction cells as [|c cells IH]; [reflexivity|].
  simpl. destruct (decide (c.1 = l)) as [Heq|Hne].
  - rewrite Heq, lookup_alter_eq, <- IH.
    match goal with
    | |- context [accumulate _ <$> ?x] => destruct x as [p|]
    end; simpl; [rewrite accumulate_requires_grad|]; reflexivity.
  - rewrite lookup_alter_ne by exact Hne. exact IH.
Qed.

Lemma step_param_flags (opt : Optimizer) (st : St) (x l : nat) :
  requires_grad <$> heap (step_param opt st x) !! l = requires_grad <$> heap st !! l.
Proof.
  unfold step_param. destruct (heap st !! x) as [p|] eqn:Hp; [|reflexivity].
  destruct (grad p); [|reflexivity]. simpl.
  destruct (decide (x = l)) as [->|Hne].
  - rewrite lookup_insert_eq, Hp. reflexivity.
  - rewrite lookup_insert_ne by exact Hne. reflexivity.
Qed.

Lemma optimizer_flags (opt : Optimizer) (ls : list nat) (st : St) (l : nat) :
  requires_grad <$> heap (foldl (step_param opt) st ls) !! l = requires_grad <$> heap st !! l.
Proof.
  revert st. induction ls as [|x ls IH]; intros st; [reflexivity|].
  simpl. rewrite IH. apply step_param_flags.
Qed.

(** every operation of the loop, taken apart *)
Ltac run_op E :=
  unfold set_mode, in_world, nll_of, io_lift, zero_grad, loss_backward,
         optimizer_step in E;
  repeat case_match; simplify_eq.

Ltac modes_op :=
  let E := fresh "E" in
  intros ? ? ? E; run_op E; intros j Hj; simpl;
  first [ reflexivity
        | apply list_lookup_insert_ne; congruence
        | rewrite optimizer_training; reflexivity ].

Ltac flags_op :=
  let E := fresh "E" in
  intros ? ? ? E; run_op E; intros l; simpl;
  first [ reflexivity
        | apply foldr_alter_field; reflexivity
        | apply backward_flags
        | apply optimizer_flags ].

Lemma train_step_modes (cfg : Config) (ctx : Ctx) (epoch step : nat)
    (acc : float * list float) :
  preserves (modes_frame (mode (policy_model ctx)))
            (train_step (W:=W) (PT:=PT) (Slot:=Slot) cfg ctx epoch step acc).
Proof.
  unfold train_step. destruct acc as [total_loss all_rewards].
  repeat (apply (preserves_bind _ (modes_frame_trans _)); [modes_op|intros ?]).
  modes_op.
Qed.

Lemma train_step_flags (cfg : Config) (ctx : Ctx) (epoch step : nat)
    (acc : float * list float) :
  preserves flags_same (train_step (W:=W) (PT:=PT) (Slot:=Slot) cfg ctx epoch step acc).
Proof.
  unfold train_step. destruct acc as [total_loss all_rewards].
  repeat (apply (preserves_bind _ flags_same_trans); [flags_op|intros ?]).
  flags_op.
Qed.

Lemma run_epoch_modes (cfg : Config) (ctx : Ctx) (epoch : nat) (u : unit) :
  preserves (modes_frame (mode (policy_model ctx)))
            (run_epoch (W:=W) (PT:=PT) (Slot:=Slot) cfg ctx epoch u).
Proof.
  unfold run_epoch. apply (preserves_bind _ (modes_frame_trans _)).
  - apply preserves_for; [apply modes_frame_refl|apply modes_frame_trans|].
    intros x b. apply train_step_modes.
  - intros acc.
    repeat (apply (preserves_bind _ (modes_frame_trans _)); [modes_op|intros ?]).
    modes_op.
Qed.

Lemma run_epoch_flags (cfg : Config) (ctx : Ctx) (epoch : nat) (u : unit) :
  preserves flags_same (run_epoch (W:=W) (PT:=PT) (Slot:=Slot) cfg ctx epoch u).
Proof.
  unfold run_epoch. apply (preserves_bind _ flags_same_trans).
  - apply preserves_for; [apply flags_same_refl|apply flags_same_trans|].
    intros x b. apply train_step_flags.
  - intros acc.
    repeat (apply (preserves_bind _ flags_same_trans); [flags_op|intros ?]).
    flags_op.
Qed.
End ModeFacts.

Section SetupValues.
Context {W PT Slot : Type} `{OSApi W} `{Torch W PT Slot}.
Local Abbreviation St := (State W PT Slot).

Lemma store_all_ne (locs : list nat) (ps : list (Param PT))
    (h : gmap nat (Param PT)) (l : nat) :
  l ∉ locs -> store_all (zip locs ps) h !! l = h !! l.
Proof.
  revert ps. induction locs as [|x locs IH]; intros ps Hl; [reflexivity|].
  destruct ps as [|p ps]; [reflexivity|]. simpl.
  rewrite lookup_insert_ne by (simpl; intros ->; apply Hl; left).
  apply IH. intros Hin. apply Hl. right. exact Hin.
Qed.

Lemma store_all_new (locs : list nat) (vals : list PT)
    (h : gmap nat (Param PT)) (i l : nat) (v : PT) :
  NoDup locs -> locs !! i = Some l -> vals !! i = Some v ->
  store_all (zip locs (map new_param vals)) h !! l = Some (new_param v).
Proof.
  revert i vals. induction locs as [|x locs IH]; intros i vals Hnd Hl Hv;
    [discriminate|].
  destruct vals as [|v0 vals]; [destruct i; discriminate|].
  apply NoDup_cons in Hnd as [Hx Hnd]. destruct i as [|i]; simpl in *.
  - injection Hl as ->. injection Hv as ->. apply lookup_insert_eq.
  - rewrite lookup_insert_ne.
    + eapply IH; eassumption.
    + intros ->. apply Hx. eapply list_elem_of_lookup_2, Hl.
Qed.

Lemma store_all_values (locs : list nat) (vals : list PT) (h : gmap nat (Param PT)) :
  NoDup locs -> length locs = length vals ->
  omap (fun l => data <$> store_all (zip locs (map new_param vals)) h !! l) locs = vals.
Proof.
  revert vals. induction locs as [|x locs IH]; intros vals Hnd Hlen.
  - destruct vals; [reflexivity|discriminate].
  - destruct vals as [|v vals]; [discriminate|].
    apply NoDup_cons in Hnd as [Hx Hnd]. simpl in Hlen.
    match goal with
    | |- omap ?f _ = _ =>
        change (omap f (x :: locs))
          with (from_option (fun y => y :: omap f locs) (omap f locs) (f x))
    end.
    simpl. rewrite lookup_insert_eq. simpl. f_equal.
    etrans; [|apply (IH vals Hnd); lia].
    apply omap_ext_in. intros l Hl.
    rewrite lookup_insert_ne by (intros ->; contradiction). reflexivity.
Qed.

(** What a successful load does: new, pairwise distinct cells holding the
    loaded values, a new module flag set to training, nothing else. *)
Lemma load_model_values (st st' : St) (m : Model) (tok : Tokenizer) :
  load_model st = (Ok (m, tok), st') ->
  exists vals,
    OA_DM_38M (world st) = (Ok (vals, tok), world st')
    /\ values_of m st' = vals
    /\ NoDup (parameters m)
    /\ mode m = length (training st)
    /\ training st' = training st ++ [true]
    /\ (forall l, l ∈ parameters m -> exists v, heap st' !! l = Some (new_param v))
    /\ (forall l, l ∉ parameters m -> heap st' !! l = heap st !! l).
Proof.
  unfold load_model, io_bind, in_world.
  destruct (OA_DM_38M (world st)) as [[[vals tok0]|e] w'] eqn:Eload; [|discriminate].
  intros E. injection E as <- <- <-. exists vals. simpl.
  assert (Hnd : NoDup (fresh_list (length vals) (dom (heap st))))
    by apply NoDup_fresh_list.
  assert (Hlen : length (fresh_list (length vals) (dom (heap st))) = length vals)
    by apply length_fresh_list.
  repeat split.
  - unfold values_of. simpl. apply store_all_values; assumption.
  - exact Hnd.
  - intros l Hl. apply list_elem_of_lookup in Hl as [i Hi].
    destruct (lookup_lt_is_Some_2 vals i) as [v Hv].
    { rewrite <- Hlen. eapply lookup_lt_Some, Hi. }
    exists v. eapply store_all_new; eassumption.
  - intros l Hl. apply store_all_ne, Hl.
Qed.

Lemma setup_values (cfg : Config) (st0 st1 : St) (ctx : Ctx) :
  setup cfg st0 = (Ok ctx, st1) ->
  exists policy_values reference_values reference_tok w1,
    OA_DM_38M (world st0) = (Ok (policy_values, tokenizer ctx), w1)
    /\ OA_DM_38M w1 = (Ok (reference_values, reference_tok), world st1)
    /\ alphabet (tokenizer ctx) = alphabet reference_tok
    /\ values_of (policy_model ctx) st1 = policy_values
    /\ values_of (ref_model ctx) st1 = reference_values
    /\ NoDup (parameters (policy_model ctx))
    /\ (forall l, l ∈ parameters (policy_model ctx) ->
          exists v, heap st1 !! l = Some (new_param v))
    /\ mode (policy_model ctx) <> mode (ref_model ctx)
    /\ is_training (policy_model ctx) st1 = true
    /\ is_training (ref_model ctx) st1 = false.
Proof.
  unfold setup. intros E.
  apply io_bind_Ok in E as ([policy ptok] & sa & Hpolicy & E).
  apply io_bind_Ok in E as ([ref rtok] & sb & Href & E).
  apply io_bind_Ok in E as (u1 & sc & Hassert & E).
  apply io_lift_Ok in Hassert as [Hassert Hsc].
  apply io_bind_Ok in E as (u2 & sd & Hfreeze & E).
  apply io_bind_Ok in E as (u3 & se & Hmode & E).
  destruct u2, u3. subst sc.
  injection E as <- <-. injection Hmode as <-. injection Hfreeze as <-.
  pose proof (load_model_Ok _ _ _ _ Hpolicy) as (_ & Hpol_in & _ & _).
  pose proof (load_model_Ok _ _ _ _ Href) as (Hfresh & _ & _ & _).
  apply load_model_values in Hpolicy
    as (pv & Hload1 & Hpv & Hnd & Hmode1 & Htr1 & Hnew1 & _).
  apply load_model_values in Href
    as (rv & Hload2 & Hrv & _ & Hmode2 & Htr2 & _ & Hframe2).
  simpl in *.
  assert (Hdisj : forall l, l ∈ parameters policy -> l ∉ parameters ref).
  { intros l Hl Hr. specialize (Hfresh l Hr). specialize (Hpol_in l Hl).
    rewrite Hfresh in Hpol_in. destruct Hpol_in as [? ?]. discriminate. }
  assert (Hkeep : forall l, l ∈ parameters policy ->
            foldr (alter freeze_param) (heap sb) (parameters ref) !! l = heap sa !! l).
  { intros l Hl. rewrite foldr_alter_frame by (apply Hdisj, Hl).
    apply Hframe2, Hdisj, Hl. }
  exists pv, rv, rtok, (world sa). repeat split.
  - exact Hload1.
  - exact Hload2.
  - destruct (String.eqb (alphabet ptok) (alphabet rtok)) eqn:Eq; [|discriminate].
    apply String.eqb_eq, Eq.
  - rewrite <- Hpv. unfold values_of. simpl. apply omap_ext_in.
    intros l Hl. rewrite Hkeep by exact Hl. reflexivity.
  - rewrite <- Hrv. unfold values_of. simpl. apply omap_ext_in.
    intros l Hl. apply foldr_alter_field. reflexivity.
  - exact Hnd.
  - intros l Hl. rewrite Hkeep by exact Hl. apply Hnew1, Hl.
  - rewrite Hmode1, Hmode2, Htr1, length_app. simpl. lia.
  - unfold is_training. simpl.
    rewrite list_lookup_insert_ne by (rewrite Hmode1, Hmode2, Htr1, length_app; simpl; lia).
    rewrite Htr2, Htr1, Hmode1, <- app_assoc, lookup_app_r by lia.
    rewrite Nat.sub_diag. reflexivity.
  - unfold is_training. simpl. rewrite list_lookup_insert_eq; [reflexivity|].
    rewrite Hmode2, Htr2, length_app. simpl. lia.
Qed.
End SetupValues.

Section UpdateFacts.
Context {W PT Slot : Type} `{OSApi W} `{Torch W PT Slot}.
Local Abbreviation St := (State W PT Slot).

Lemma foldr_alter_at (f : Param PT -> Param PT) (ls : list nat)
    (h : gmap nat (Param PT)) (l : nat) :
  NoDup ls -> l ∈ ls -> foldr (alter f) h ls !! l = f <$> h !! l.
Proof.
  induction ls as [|x ls IH]; intros Hnd Hl; [apply elem_of_nil in Hl; destruct Hl|].
  apply NoDup_cons in Hnd as [Hx Hnd]. simpl.
  apply elem_of_cons in Hl as [->|Hl].
  - rewrite lookup_alter_eq, foldr_alter_frame by exact Hx. reflexivity.
  - rewrite lookup_alter_ne by (intros ->; contradiction). apply IH; assumption.
Qed.

Lemma backward_at (ls : list nat) (gs : list PT) (h : gmap nat (Param PT))
    (i l : nat) (g : PT) :
  NoDup ls -> ls !! i = Some l -> gs !! i = Some g ->
  foldr (fun cell acc => alter (accumulate cell.2) cell.1 acc) h (zip ls gs) !! l
  = accumulate g <$> h !! l.
Proof.
  revert i gs. induction ls as [|x ls IH]; intros i gs Hnd Hl Hg; [discriminate|].
  destruct gs as [|g0 gs]; [destruct i; discriminate|].
  apply NoDup_cons in Hnd as [Hx Hnd]. destruct i as [|i]; simpl in *.
  - injection Hl as ->. injection Hg as ->.
    rewrite lookup_alter_eq, backward_frame; [reflexivity|].
    intros Hin. apply Hx. apply list_elem_of_fmap in Hin as ([y g1] & -> & Hin).
    apply elem_of_zip_l in Hin. exact Hin.
  - rewrite lookup_alter_ne.
    + eapply IH; eassumption.
    + intros ->. apply Hx. eapply list_elem_of_lookup_2, Hl.
Qed.

Lemma step_param_at (opt : Optimizer) (st : St) (l : nat) :
  heap (step_param opt st l) !! l = updated opt (opt_state st !! l) <$> heap st !! l
  /\ opt_state (step_param opt st l) !! l
     = updated_slot opt (opt_state st !! l) (heap st !! l).
Proof.
  unfold step_param, updated, updated_slot.
  destruct (heap st !! l) as [p|] eqn:Hp; [|rewrite Hp; split; reflexivity].
  destruct (grad p) as [g|] eqn:Hg; simpl.
  - rewrite !lookup_insert_eq, Hg. split; reflexivity.
  - rewrite Hp. simpl. rewrite Hg. split; reflexivity.
Qed.

Lemma step_param_slot_frame (opt : Optimizer) (st : St) (x l : nat) :
  l <> x -> opt_state (step_param opt st x) !! l = opt_state st !! l.
Proof.
  intros Hne. unfold step_param. destruct (heap st !! x) as [p|]; [|reflexivity].
  destruct (grad p); [|reflexivity]. simpl. apply lookup_insert_ne. congruence.
Qed.

Lemma optimizer_slot_frame (opt : Optimizer) (ls : list nat) (st : St) (l : nat) :
  l ∉ ls -> opt_state (foldl (step_param opt) st ls) !! l = opt_state st !! l.
Proof.
  revert st. induction ls as [|x ls IH]; intros st Hl; [reflexivity|].
  simpl. rewrite IH by (intros Hin; apply Hl; right; exact Hin).
  apply step_param_slot_frame. intros ->. apply Hl. left.
Qed.

Lemma optimizer_at (opt : Optimizer) (ls : list nat) (st : St) (l : nat) :
  NoDup ls -> l ∈ ls ->
  heap (foldl (step_param opt) st ls) !! l = updated opt (opt_state st !! l) <$> heap st !! l
  /\ opt_state (foldl (step_param opt) st ls) !! l
     = updated_slot opt (opt_state st !! l) (heap st !! l).
Proof.
  revert st. induction ls as [|x ls IH]; intros st Hnd Hl;
    [apply elem_of_nil in Hl; destruct Hl|].
  apply NoDup_cons in Hnd as [Hx Hnd]. simpl.
  apply elem_of_cons in Hl as [->|Hl].
  - rewrite optimizer_frame, optimizer_slot_frame by exact Hx. apply step_param_at.
  - assert (Hne : l <> x) by (intros ->; contradiction).
    destruct (IH (step_param opt st x) Hnd Hl) as [Hh Ho].
    rewrite Hh, Ho, step_param_frame, step_param_slot_frame by exact Hne.
    split; reflexivity.
Qed.
End UpdateFacts.

Section LoopExtras.
Context {W PT Slot : Type} `{OSApi W} `{Torch W PT Slot}.

(** X14.  After a successful set-up each model holds exactly the values its own
    call of the loader returned, the second call having started in the
    world the first one left; the two tokenizers have the same alphabet and
    the policy's is the one used from then on.  The policy's parameters are
    pairwise distinct tensors, each trainable and without a gradient. *)
Theorem setup_loads_pretrained_values (cfg : Config) (st0 st1 : State W PT Slot)
    (ctx : Ctx) (Hsetup : setup cfg st0 = (Ok ctx, st1)) :
  exists policy_values reference_values reference_tok w1,
    OA_DM_38M (world st0) = (Ok (policy_values, tokenizer ctx), w1)
    /\ OA_DM_38M w1 = (Ok (reference_values, reference_tok), world st1)
    /\ alphabet (tokenizer ctx) = alphabet reference_tok
    /\ values_of (policy_model ctx) st1 = policy_values
    /\ values_of (ref_model ctx) st1 = reference_values
    /\ NoDup (parameters (policy_model ctx))
    /\ (forall l, l ∈ parameters (policy_model ctx) ->
          exists p, heap st1 !! l = Some p /\ requires_grad p = true /\ grad p = None).
Proof.
  apply setup_values in Hsetup
    as (pv & rv & rtok & w1 & H1 & H2 & H3 & H4 & H5 & H6 & H7 & _).
  exists pv, rv, rtok, w1. repeat split; try assumption.
  intros l Hl. destruct (H7 l Hl) as [v Hv]. exists (new_param v).
  repeat split. exact Hv.
Qed.

(** X15.  The reference model is in evaluation mode after the set-up, its flag is
    not the policy's, and no training step changes it, whether the step
    returns or raises; so it is still in evaluation mode when the training
    loop ends.  The policy starts in training mode. *)
Theorem reference_stays_in_eval_mode (cfg : Config) (st0 st1 : State W PT Slot)
    (ctx : Ctx) (Hsetup : setup cfg st0 = (Ok ctx, st1)) :
  is_training (ref_model ctx) st1 = false
  /\ is_training (policy_model ctx) st1 = true
  /\ (forall epoch step acc (st : State W PT Slot),
        is_training (ref_model ctx) (train_step cfg ctx epoch step acc st).2
        = is_training (ref_model ctx) st)
  /\ is_training (ref_model ctx) (training_loop cfg ctx st1).2 = false.
Proof.
  apply setup_values in Hsetup
    as (_ & _ & _ & _ & _ & _ & _ & _ & _ & _ & _ & Hne & Hpol & Href).
  split; [exact Href|]. split; [exact Hpol|]. split.
  - intros epoch step acc st. unfold is_training. f_equal.
    eapply train_step_modes; [apply surjective_pairing|].
    intros E. apply Hne. symmetry. exact E.
  - rewrite <- Href. unfold is_training. f_equal.
    eapply (preserves_for _ (modes_frame_refl _) (modes_frame_trans _));
      [|apply surjective_pairing|intros E; apply Hne; symmetry; exact E].
    intros x b. apply run_epoch_modes.
Qed.

(** X16.  No training step and no epoch creates or removes a parameter or changes
    whether a parameter requires a gradient, whether it returns or raises:
    what the set-up froze stays frozen and what it left trainable stays
    trainable. *)
Theorem requires_grad_flags_are_stable (cfg : Config) (ctx : Ctx)
    (st : State W PT Slot) :
  (forall epoch step acc l,
     requires_grad <$> heap (train_step cfg ctx epoch step acc st).2 !! l
     = requires_grad <$> heap st !! l)
  /\ (forall l,
        requires_grad <$> heap (training_loop cfg ctx st).2 !! l
        = requires_grad <$> heap st !! l).
Proof.
  split.
  - intros epoch step acc l. eapply train_step_flags, surjective_pairing.
  - intros l.
    eapply (preserves_for _ flags_same_refl flags_same_trans);
      [|apply surjective_pairing].
    intros x b. apply run_epoch_flags.
Qed.

(** X17.  [optimizer.zero_grad(); loss.backward(); optimizer.step()] on an
    optimizer over the policy's parameters: a trainable parameter for which
    the backward pass delivers the gradient [g] is updated by the AdamW rule
    from its current value, its current optimizer state and [g] alone.  A
    gradient left on the parameter by an earlier step plays no part, and
    [g] is the gradient the parameter holds afterwards. *)
Theorem update_uses_only_the_new_gradient (opt : Optimizer) (policy : Model)
    (gs : list PT) (st : State W PT Slot) (i l : nat) (g : PT) (p : Param PT)
    (Hgroup : param_group opt = parameters policy)
    (Hdistinct : NoDup (parameters policy))
    (Hl : parameters policy !! i = Some l)
    (Hg : gs !! i = Some g)
    (Hp : heap st !! l = Some p)
    (Htrainable : requires_grad p = true) :
  let upd := adamw_update opt (opt_state st !! l) (data p) g in
  exists st',
    (DO _ <- zero_grad opt IN
     DO _ <- loss_backward policy (Ok gs) IN
     optimizer_step opt) st = (Ok tt, st')
    /\ heap st' !! l = Some {| data := upd.1; requires_grad := true; grad := Some g |}
    /\ opt_state st' !! l = Some upd.2
    /\ training st' = training st.
Proof.
  intros upd.
  assert (Hin : l ∈ parameters policy) by (eapply list_elem_of_lookup_2, Hl).
  set (h1 := foldr (alter clear_grad) (heap st) (param_group opt)).
  assert (Hh1 : h1 !! l = Some (clear_grad p)).
  { subst h1. rewrite Hgroup, foldr_alter_at, Hp by assumption. reflexivity. }
  unfold io_bind, zero_grad, loss_backward, optimizer_step. simpl. fold h1.
  destruct (forallb _ (parameters policy)) eqn:Hall.
  { rewrite forallb_forall in Hall. specialize (Hall l).
    rewrite Hh1 in Hall. simpl in Hall. rewrite Htrainable in Hall.
    discriminate Hall. apply list_elem_of_In, Hin. }
  eexists. split; [reflexivity|].
  match goal with
  | |- context [foldl (step_param opt) ?s _] => set (s2 := s)
  end.
  assert (Hh2 : heap s2 !! l
                = Some {| data := data p; requires_grad := true; grad := Some g |}).
  { subst s2. simpl. rewrite (backward_at _ _ _ i l g), Hh1 by assumption.
    simpl. unfold accumulate. simpl. rewrite Htrainable. reflexivity. }
  destruct (optimizer_at opt (param_group opt) s2 l) as [Hheap Hslot];
    [rewrite Hgroup; exact Hdistinct|rewrite Hgroup; exact Hin|].
  rewrite Hheap, Hslot, Hh2. split; [reflexivity|]. split; [reflexivity|].
  rewrite optimizer_training. reflexivity.
Qed.
End LoopExtras.

Lemma setup_loads_pretrained_values_witness :
  values_of {| parameters := [0; 1]%nat; mode := 0 |} (setup ex_config ex_initial).2
    = [10; 20]%nat
  /\ values_of {| parameters := [2; 3]%nat; mode := 1 |} (setup ex_config ex_initial).2
    = [10; 20]%nat.
Proof.
  edestruct (setup_loads_pretrained_values ex_config ex_initial)
    as (pv & rv & rtok & w1 & H1 & H2 & _ & H4 & H5 & _); [reflexivity|].
  injection H1 as <- <-. injection H2 as <- _. split; [exact H4|exact H5].
Defined.

Lemma reference_stays_in_eval_mode_witness :
  is_training {| parameters := [2; 3]%nat; mode := 1 |}
    (main_with ex_config ex_initial).2 = false.
Proof.
  edestruct (reference_stays_in_eval_mode ex_config ex_initial)
    as (_ & _ & _ & Hloop); [reflexivity|].
  exact Hloop.
Defined.

Lemma update_uses_only_the_new_gradient_witness :
  let policy := {| parameters := [0; 1]%nat; mode := 0 |} in
  let opt := AdamW [0; 1]%nat ex_config in
  heap ((DO _ <- zero_grad opt IN
         DO _ <- loss_backward policy (Ok [5; 7]%nat) IN
         optimizer_step opt) ex_stale_state).2 !! 0%nat
  = Some {| data := 3%nat; requires_grad := true; grad := Some 5%nat |}.
Proof.
  intros policy opt.
  edestruct (update_uses_only_the_new_gradient opt policy [5; 7]%nat ex_stale_state
               0 0 5%nat)
    as (st' & Hrun & Hheap & _);
    [reflexivity|apply NoDup_cons; split; [intros Hin; apply list_elem_of_In in Hin; simpl in Hin; lia|apply NoDup_singleton]|reflexivity|reflexivity
    |reflexivity|reflexivity|].
  rewrite Hrun. exact Hheap.
Defined.

Section FailedStep.
Context {W PT Slot : Type} `{OSApi W} `{Torch W PT Slot}.
Local Abbreviation St := (State W PT Slot).

Lemma rewards_of_length (trace : list (Res float)) (rewards : tensor) :
  rewards_of trace = Ok rewards ->
  Forall (fun o => escapes o = false) trace /\ length rewards = length trace.
Proof.
  revert rewards. induction trace as [|o trace IH]; intros rewards E.
  - injection E as <-. split; [constructor|reflexivity].
  - destruct o as [r|e]; simpl in E.
    + apply res_bind_Ok in E as (rs & Hrs & E). injection E as <-.
      destruct (IH rs Hrs) as [Hall Hlen].
      split; [constructor; [reflexivity|exact Hall]|simpl; congruence].
    + destruct (is_Exception e) eqn:He; [|discriminate].
      apply res_bind_Ok in E as (rs & Hrs & E). injection E as <-.
      destruct (IH rs Hrs) as [Hall Hlen].
      split; [constructor; [simpl; rewrite He; reflexivity|exact Hall]
             |simpl; congruence].
Qed.

Lemma get_reward_length (sequences : list string) (target : string)
    (predict : string -> string -> IO W unit) (root : string) (w w' : W)
    (rewards : tensor) :
  get_reward sequences target predict root w = (Ok rewards, w') ->
  length rewards = length sequences.
Proof.
  unfold get_reward. intros E.
  apply io_bind_Ok in E as (u & w1 & _ & E).
  rewrite get_reward_loop_outcomes in E.
  destruct (rewards_of (outcomes target predict root (enumerate sequences) w1).1)
    as [rs|e] eqn:Hrs; [|discriminate].
  injection E as <- _. simpl.
  apply rewards_of_length in Hrs as [Hall ->].
  rewrite length_outcomes by exact Hall.
  unfold enumerate. rewrite length_zip_with, length_seq. lia.
Qed.

Lemma accumulate_data (g : PT) (p : Param PT) : data (accumulate g p) = data p.
Proof. unfold accumulate. destruct (requires_grad p); reflexivity. Qed.

Lemma backward_data (cells : list (nat * PT)) (h : gmap nat (Param PT)) (l : nat) :
  data <$> foldr (fun cell acc => alter (accumulate cell.2) cell.1 acc) h cells !! l
  = data <$> h !! l.
Proof.
  induction cells as [|c cells IH]; [reflexivity|].
  simpl. destruct (decide (c.1 = l)) as [Heq|Hne].
  - rewrite Heq, lookup_alter_eq, <- IH.
    match goal with
    | |- context [accumulate _ <$> ?x] => destruct x as [p|]
    end; simpl; [rewrite accumulate_data|]; reflexivity.
  - rewrite lookup_alter_ne by exact Hne. exact IH.
Qed.

Lemma values_of_data (m : Model) (st st' : St) :
  (forall l, data <$> heap st' !! l = data <$> heap st !! l) ->
  values_of m st' = values_of m st.
Proof. intros Hsame. unfold values_of. apply omap_ext_in. intros l _. apply Hsame. Qed.

Ltac run_op E :=
  cbv beta in E;
  unfold set_mode, in_world, nll_of, io_lift, zero_grad, loss_backward,
         optimizer_step in E;
  repeat case_match; simplify_eq.

Ltac data_done :=
  split; [intros l; simpl; rewrite ?backward_data, ?(foldr_alter_field data);
          reflexivity
         |reflexivity].

Ltac next_op E :=
  let Em := fresh "Em" in
  apply io_bind_inv in E as [(? & ? & Em & E)|(? & Em & _)];
  [run_op Em|run_op Em; try data_done].

(** A step that raises does so before [optimizer.step()], or in the
    update of the progress bar. *)
Lemma train_step_raise_data (cfg : Config) (ctx : Ctx) (epoch step : nat)
    (acc : float * list float) (st st' : St) (e : exn) :
  train_step cfg ctx epoch step acc st = (Raise e, st') ->
  data_same st st'
  \/ exists (s : St) (loss avg_reward : float) (w' : W),
       pbar_set_description epoch loss avg_reward (world s) = (Raise e, w')
       /\ st' = set_world s w'
       /\ steps_done s = steps_done st.
Proof.
  unfold train_step. destruct acc as [total_loss all_rewards]. intros E.
  do 10 (next_op E; [|left; data_done..]).
  match goal with
  | Hnll : calculate_nll _ _ ?seqs = Ok _,
    Hrew : get_reward ?seqs _ _ _ _ = (Ok ?rewards, _) |- _ =>
      rename seqs into gen_seqs; rename rewards into rewards;
      assert (Hseqs : gen_seqs <> []) by (intros ->; discriminate);
      assert (Hlen : length rewards = length gen_seqs)
        by (eapply get_reward_length; exact Hrew)
  end.
  apply io_bind_inv in E as [(? & ? & Em & E)|(? & Em & _)]; [|discriminate].
  injection Em as _ <-.
  apply io_bind_inv in E as [(avg & ? & Em & E)|(? & Em & _)].
  - injection Em as _ <-.
    apply io_bind_inv in E as [(? & ? & Em & E)|(e' & Em & He)]; [discriminate|].
    injection He as <-.
    right. unfold in_world in Em.
    match type of Em with
    | context [pbar_set_description ?ep ?l ?a ?w] =>
        destruct (pbar_set_description ep l a w) as [rbar wbar] eqn:Hbar
    end.
    injection Em as -> <-.
    eexists _, _, _, _. split; [exact Hbar|]. split; [reflexivity|].
    simpl.
    match goal with
    | |- steps_done (foldl (step_param ?o) ?s0 ?ls) = _ =>
        rewrite (proj2 (optimizer_log o ls s0))
    end.
    reflexivity.
  - exfalso. unfold io_lift, py_average in Em.
    match type of Em with
    | context [all_rewards ++ ?rewards] =>
        destruct (all_rewards ++ rewards) as [|r rs] eqn:Hall; [|discriminate];
        apply app_eq_nil in Hall as [_ ->]
    end.
    match goal with
    | Hl : length [] = length ?seqs |- _ => destruct seqs; [congruence|discriminate]
    end.
Qed.

(** X18.  A training step that raises has applied no update, unless the
    exception comes from the update of the progress bar, the last
    operation of the step: in every other case every parameter (of the
    policy and of the reference) holds the value it had before the step and
    the optimizer's state is unchanged; only gradients may have been
    cleared or accumulated.  Everything that can raise before the progress
    bar is updated comes before [optimizer.step()]. *)
Theorem failed_step_applies_no_update (cfg : Config) (ctx : Ctx) (epoch step : nat)
    (acc : float * list float) (st st' : State W PT Slot) (e : exn)
    (Hraise : train_step cfg ctx epoch step acc st = (Raise e, st')) :
  (values_of (policy_model ctx) st' = values_of (policy_model ctx) st
   /\ values_of (ref_model ctx) st' = values_of (ref_model ctx) st
   /\ (forall l, data <$> heap st' !! l = data <$> heap st !! l)
   /\ opt_state st' = opt_state st)
  \/ exists (s : State W PT Slot) (loss avg_reward : float) (w' : W),
       pbar_set_description epoch loss avg_reward (world s) = (Raise e, w')
       /\ st' = set_world s w'
       /\ steps_done s = steps_done st.
Proof.
  apply train_step_raise_data in Hraise as [[Hdata Hopt]|Hbar]; [left|right; exact Hbar].
  split; [apply values_of_data, Hdata|].
  split; [apply values_of_data, Hdata|].
  split; assumption.
Qed.
End FailedStep.

Lemma failed_step_applies_no_update_witness :
  let ctx := {| policy_model := {| parameters := [0; 1]%nat; mode := 0 |};
                ref_model := {| parameters := []; mode := 0 |};
                tokenizer := ex_tokenizer;
                optimizer := AdamW [0; 1]%nat ex_config |} in
  let run := @train_step _ _ _ _ ex_torch_failing ex_config ctx 0 0 (Some 0, [])
               ex_full_state in
  run.1 = Raise RuntimeError
  /\ @values_of ExFS nat unit (policy_model ctx) run.2 = [8; 18]%nat.
Proof.
  intros ctx run. split; [reflexivity|].
  destruct (@failed_step_applies_no_update _ _ _ _ ex_torch_failing ex_config ctx 0 0
              (Some 0, []) ex_full_state run.2 RuntimeError)
    as [(Hvalues & _)|(s & loss & avg & w' & Hbar & _)]; [reflexivity| |discriminate].
  exact Hvalues.
Defined.
